(** * rayzor: test-support artifacts

    A shallow embedding of the two C files of the repository,

    - [compiler/tests/hdll_fixtures/testmath.c], a fixture library in the
      HashLink HDLL style (module [TestMath]), and
    - [ci/bench-test/seghandler.c], a crash diagnostic shim (module
      [SegHandler]),

    together with the properties their specification states about them. *)

From Stdlib Require Import ZArith Lia Floats Ascii String.
From Stdlib Require Import DecimalString HexString.
From stdpp Require Import gmap strings list.
From Equations Require Import Equations.

Local Open Scope Z_scope.

(** ** C scalar types *)

(** [int] is a 32-bit two's complement integer.  A value is a [Z] in
    [INT_MIN .. INT_MAX]; arithmetic is done in [Z] and brought back into
    range by [wrap_int], as the machine's add and multiply instructions do.
    (ISO C leaves signed overflow undefined; the fixture is built without
    any trapping option, and the compiled code wraps.)

    [double] is IEEE 754 binary64 with round-to-nearest-even, the
    arithmetic of x86-64 and AArch64: Rocq's primitive [float]. *)
Module CInt.

Definition INT_MIN : Z := - 2 ^ 31.
Definition INT_MAX : Z := 2 ^ 31 - 1.
Definition modulus : Z := 2 ^ 32.

Definition in_range (z : Z) : Prop := INT_MIN <= z <= INT_MAX.

Definition wrap_int (z : Z) : Z := (z - INT_MIN) mod modulus + INT_MIN.

Definition add (a b : Z) : Z := wrap_int (a + b).
Definition mul (a b : Z) : Z := wrap_int (a * b).

End CInt.

(** ** The fixture library, [testmath.c] *)
Module TestMath.

Import CInt.

(** *** Actual library functions *)

Definition testmath_add (a b : Z) : Z := CInt.add a b.

Definition testmath_multiply (a b : Z) : Z := CInt.mul a b.

(** The body of the [for] loop of [testmath_sqrt_approx]. *)
Definition newton_update (x guess : float) : float :=
  ((guess + x / guess) / 2)%float.

(** [for (int i = 0; i < 10; i++) guess = ...;], entered with the counter
    at [i]. *)
Equations? sqrt_loop (x : float) (i : Z) (guess : float) : float
  by wf (Z.to_nat (10 - i)) lt :=
  sqrt_loop x i guess with Z_lt_dec i 10 := {
    | left _ => sqrt_loop x (CInt.add i 1) (newton_update x guess)
    | right _ => guess }.
Proof.
  unfold CInt.add, wrap_int, modulus, INT_MIN.
  pose proof (Z.mod_pos_bound (i + 1 - - 2 ^ 31) (2 ^ 32) eq_refl) as Hr.
  destruct (Z_lt_dec i (- 2 ^ 31)) as [Hlow | Hin].
  - lia.
  - rewrite Z.mod_small; lia.
Qed.

Definition testmath_sqrt_approx (x : float) : float :=
  if (x <=? 0)%float then 0%float
  else sqrt_loop x 0 (x / 2)%float.

(** *** Linkage, prototypes and addresses *)

(** The six functions the translation unit defines.  None is declared
    [static]: every one has external linkage and is exported by the shared
    library under its own name. *)
Inductive func : Set :=
| fn_testmath_add
| fn_testmath_multiply
| fn_testmath_sqrt_approx
| fn_hlp_add
| fn_hlp_multiply
| fn_hlp_sqrt_approx.

#[export] Instance func_eq_dec : EqDecision func.
Proof. solve_decision. Defined.

Inductive linkage : Set := External | Internal.

Definition translation_unit : list func :=
  [ fn_testmath_add; fn_testmath_multiply; fn_testmath_sqrt_approx;
    fn_hlp_add; fn_hlp_multiply; fn_hlp_sqrt_approx ].

Definition symbol (f : func) : string :=
  match f with
  | fn_testmath_add => "testmath_add"
  | fn_testmath_multiply => "testmath_multiply"
  | fn_testmath_sqrt_approx => "testmath_sqrt_approx"
  | fn_hlp_add => "hlp_add"
  | fn_hlp_multiply => "hlp_multiply"
  | fn_hlp_sqrt_approx => "hlp_sqrt_approx"
  end.

Definition linkage_of (f : func) : linkage := External.

Definition is_external (f : func) : bool :=
  match linkage_of f with External => true | Internal => false end.

(** The dynamic symbol table of the shared library. *)
Definition exported_symbols : list string :=
  symbol <$> filter (fun f => is_external f = true) translation_unit.

Definition exported (s : string) : Prop := s ∈ exported_symbols.

Inductive ctype : Set :=
| Tint
| Tdouble
| Tvoid
| Tchar
| Tptr (t : ctype).

#[export] Instance ctype_eq_dec : EqDecision ctype.
Proof. solve_decision. Defined.

Record prototype : Set := Proto { params : list ctype; ret : ctype }.

#[export] Instance prototype_eq_dec : EqDecision prototype.
Proof. solve_decision. Defined.

Definition prototype_of (f : func) : prototype :=
  match f with
  | fn_testmath_add | fn_testmath_multiply => Proto [Tint; Tint] Tint
  | fn_testmath_sqrt_approx => Proto [Tdouble] Tdouble
  | fn_hlp_add | fn_hlp_multiply | fn_hlp_sqrt_approx =>
      Proto [Tptr (Tptr Tchar)] (Tptr Tvoid)
  end.

(** The string literals of the file, one per occurrence.  Each lives in
    static storage as its characters followed by a NUL byte. *)
Inductive literal : Set := lit_add | lit_multiply | lit_sqrt_approx.

#[export] Instance literal_eq_dec : EqDecision literal.
Proof. solve_decision. Defined.

Definition literal_text (l : literal) : string :=
  match l with
  | lit_add => "ii_i"
  | lit_multiply => "ii_i"
  | lit_sqrt_approx => "d_d"
  end.

Definition NUL : ascii := "000"%char.

Definition static_bytes (l : literal) : list ascii :=
  list_ascii_of_string (literal_text l) ++ [NUL].

Inductive pointer : Set :=
| NULL
| PLit (l : literal)
| PFun (f : func)
| PSlot (a : Z).

#[export] Instance pointer_eq_dec : EqDecision pointer.
Proof. solve_decision. Defined.

(** What a reader of a C string sees at [bytes]: the characters up to the
    first NUL, or nothing when no NUL follows. *)
Fixpoint c_string (bytes : list ascii) : option string :=
  match bytes with
  | [] => None
  | c :: rest =>
      if Ascii.eqb c NUL then Some EmptyString
      else String c <$> c_string rest
  end.

Definition string_at (p : pointer) : option string :=
  match p with
  | PLit l => c_string (static_bytes l)
  | _ => None
  end.

Definition is_static (p : pointer) : bool :=
  match p with PLit _ | PFun _ => true | _ => false end.

(** The [const char*] objects the host owns, by address.  Writing through
    a pointer that designates none of them is undefined: [None]. *)
Definition store (p v : pointer) (m : gmap Z pointer)
  : option (gmap Z pointer) :=
  match p with
  | PSlot a => if decide (is_Some (m !! a)) then Some (<[a := v]> m) else None
  | _ => None
  end.

Definition load (p : pointer) (m : gmap Z pointer) : option pointer :=
  match p with
  | PSlot a => m !! a
  | _ => None
  end.

Definition valid_slot (m : gmap Z pointer) (p : pointer) : Prop :=
  is_Some (load p m).

(** *** hlp_ introspection symbols *)

Definition hlp_add (sign : pointer) (m : gmap Z pointer)
  : option (gmap Z pointer * pointer) :=
  m' ← store sign (PLit lit_add) m;
  Some (m', PFun fn_testmath_add).

Definition hlp_multiply (sign : pointer) (m : gmap Z pointer)
  : option (gmap Z pointer * pointer) :=
  m' ← store sign (PLit lit_multiply) m;
  Some (m', PFun fn_testmath_multiply).

Definition hlp_sqrt_approx (sign : pointer) (m : gmap Z pointer)
  : option (gmap Z pointer * pointer) :=
  m' ← store sign (PLit lit_sqrt_approx) m;
  Some (m', PFun fn_testmath_sqrt_approx).

(** *** Signature strings

    The format the comment above the hlp_ functions gives:
    parameter type codes, then ["_"], then the return type code, with
    [i] = i32, [d] = f64, [v] = void, [b] = bool, [B] = bytes. *)
Inductive type_code : Set := code_i | code_d | code_v | code_b | code_B.

#[export] Instance type_code_eq_dec : EqDecision type_code.
Proof. solve_decision. Defined.

Definition type_code_of_ascii (c : ascii) : option type_code :=
  if Ascii.eqb c "i" then Some code_i
  else if Ascii.eqb c "d" then Some code_d
  else if Ascii.eqb c "v" then Some code_v
  else if Ascii.eqb c "b" then Some code_b
  else if Ascii.eqb c "B" then Some code_B
  else None.

(** Parameter codes up to the separator; [v] is a return code only. *)
Fixpoint parse_params (s : string) : option (list type_code * string) :=
  match s with
  | EmptyString => None
  | String c rest =>
      if Ascii.eqb c "_" then Some ([], rest)
      else
        t ← type_code_of_ascii c;
        if decide (t = code_v) then None
        else '(ps, r) ← parse_params rest; Some (t :: ps, r)
  end.

Definition parse_signature (s : string)
  : option (list type_code * type_code) :=
  '(ps, r) ← parse_params s;
  match r with
  | String c EmptyString => t ← type_code_of_ascii c; Some (ps, t)
  | _ => None
  end.

Definition well_formed_signature (s : string) : Prop :=
  is_Some (parse_signature s).

(** The C type a code stands for. *)
Definition ctype_of_code (t : type_code) : ctype :=
  match t with
  | code_i => Tint
  | code_d => Tdouble
  | code_v => Tvoid
  | code_b => Tchar
  | code_B => Tptr Tchar
  end.

(** The function type a signature string describes. *)
Definition prototype_of_signature (s : string) : option prototype :=
  '(ps, r) ← parse_signature s;
  Some (Proto (ctype_of_code <$> ps) (ctype_of_code r)).

(** *** Calls *)

Inductive val : Set :=
| Vint (n : Z)
| Vdouble (d : float).

Definition has_type (v : val) (t : ctype) : Prop :=
  match v, t with
  | Vint n, Tint => in_range n
  | Vdouble _, Tdouble => True
  | _, _ => False
  end.

(** A direct call of one of the arithmetic functions. *)
Definition call (f : func) (args : list val) : option val :=
  match f, args with
  | fn_testmath_add, [Vint a; Vint b] => Some (Vint (testmath_add a b))
  | fn_testmath_multiply, [Vint a; Vint b] =>
      Some (Vint (testmath_multiply a b))
  | fn_testmath_sqrt_approx, [Vdouble x] =>
      Some (Vdouble (testmath_sqrt_approx x))
  | _, _ => None
  end.

(** A call through [p] converted to a pointer to a function of type
    [ty]: defined only when [p] is the address of a function of that
    type. *)
Definition call_indirect (p : pointer) (ty : prototype) (args : list val)
  : option val :=
  match p with
  | PFun f => if decide (prototype_of f = ty) then call f args else None
  | _ => None
  end.

(** What the host does with the two results of an hlp_ function: it reads
    the signature string, and calls through the code pointer at the
    function type the string describes. *)
Definition dispatch (sign code : pointer) (args : list val) : option val :=
  s ← string_at sign;
  ty ← prototype_of_signature s;
  call_indirect code ty args.

(** *** The primitives the library ships

    The name of a primitive is the [<name>] of its [hlp_<name>] function;
    its implementation is the function [testmath_<name>]. *)
Inductive primitive : Set := prim_add | prim_multiply | prim_sqrt_approx.

Definition prim_name (P : primitive) : string :=
  match P with
  | prim_add => "add"
  | prim_multiply => "multiply"
  | prim_sqrt_approx => "sqrt_approx"
  end.

Definition impl (P : primitive) : func :=
  match P with
  | prim_add => fn_testmath_add
  | prim_multiply => fn_testmath_multiply
  | prim_sqrt_approx => fn_testmath_sqrt_approx
  end.

Definition companion (P : primitive) : func :=
  match P with
  | prim_add => fn_hlp_add
  | prim_multiply => fn_hlp_multiply
  | prim_sqrt_approx => fn_hlp_sqrt_approx
  end.

Definition hlp (P : primitive)
  : pointer -> gmap Z pointer -> option (gmap Z pointer * pointer) :=
  match P with
  | prim_add => hlp_add
  | prim_multiply => hlp_multiply
  | prim_sqrt_approx => hlp_sqrt_approx
  end.

(** *** The host's view of the loaded library *)

(** Symbol resolution: the address of the exported function of that name. *)
Definition dlsym (name : string) : option pointer :=
  PFun <$> find (fun f => is_external f && String.eqb (symbol f) name)
                translation_unit.

(** A call of an hlp_ function through its address. *)
Definition call_hlp (p sign : pointer) (m : gmap Z pointer)
  : option (gmap Z pointer * pointer) :=
  match p with
  | PFun fn_hlp_add => hlp_add sign m
  | PFun fn_hlp_multiply => hlp_multiply sign m
  | PFun fn_hlp_sqrt_approx => hlp_sqrt_approx sign m
  | _ => None
  end.

(** Discovery of the primitive [name], as the host runtime does it: resolve
    [hlp_<name>], call it with an out-slot, read the signature from the slot
    and call through the returned address. *)
Definition discover_and_call
  (name : string) (slot : pointer) (args : list val) (m : gmap Z pointer)
  : option (string * val) :=
  h ← dlsym ("hlp_" +:+ name);
  '(m', code) ← call_hlp h slot m;
  sig_ptr ← load slot m';
  s ← string_at sig_ptr;
  r ← dispatch sig_ptr code args;
  Some (s, r).

End TestMath.

(** ** The crash diagnostic shim, [seghandler.c] *)
Module SegHandler.

Definition nl : string := String "010" EmptyString.

(** [%d] of an [int]. *)
Definition fmt_d (n : Z) : string := NilZero.string_of_int (Z.to_int n).

Definition STDERR_FILENO : Z := 2.

Inductive stream : Set := stdout | stderr.

Definition fileno (s : stream) : Z :=
  match s with stdout => 1 | stderr => STDERR_FILENO end.

(** How a piece of text reached a file descriptor: through a stdio
    stream ([fprintf]), or handed to the descriptor itself. *)
Inductive route : Set :=
| ViaStream (s : stream)
| Direct.

Record output : Set :=
  Output { out_fd : Z; out_route : route; out_text : string }.

Inductive handler_fn : Set := fn_segfault_handler.

Record stack_t : Set := Stack { ss_sp : Z; ss_size : Z; ss_flags : Z }.

Record sigaction_t : Set :=
  SigAction { sa_sigaction : handler_fn; sa_flags : Z; sa_mask : list Z }.

Record siginfo_t : Set := SigInfo { si_code : Z; si_addr : Z }.

(** *** Buffering of stdio streams *)

Inductive buffering : Set := Unbuffered | LineBuffered | FullyBuffered.

(** A stream: its buffering mode, the text formatted into it that has not
    been handed to the descriptor yet, and the size of its buffer. *)
Record stream_state : Set :=
  StreamState { mode : buffering; pending : string; capacity : positive }.

(** [s] cut after its last newline: the part up to and including that
    newline and the rest; nothing when [s] has no newline. *)
Fixpoint split_last_newline (s : string) : option (string * string) :=
  match s with
  | EmptyString => None
  | String c r =>
      match split_last_newline r with
      | Some (a, b) => Some (String c a, b)
      | None =>
          if Ascii.eqb c "010" then Some (String c EmptyString, r) else None
      end
  end.

(** The first [k] characters of [s], and the rest. *)
Fixpoint split_at (k : nat) (s : string) : string * string :=
  match k, s with
  | O, _ => (EmptyString, s)
  | S _, EmptyString => (EmptyString, EmptyString)
  | S k', String c r =>
      let ab := split_at k' r in (String c (fst ab), snd ab)
  end.

(** A formatted write of [text] into a stream: what is handed to the
    descriptor now, if anything, and the stream afterwards.  An unbuffered
    stream hands over everything at once.  A line-buffered one hands over
    what it holds together with the text up to its last newline.  A fully
    buffered one, and a line-buffered one given text without a newline,
    hands over nothing while the buffer can take the text, and otherwise
    whole blocks of the buffer's size, keeping the remainder. *)
Definition put (st : stream_state) (text : string)
  : option string * stream_state :=
  let buf := pending st +:+ text in
  let keep rest := StreamState (mode st) rest (capacity st) in
  let when_full :=
    let len := Z.of_nat (String.length buf) in
    let cap := Z.pos (capacity st) in
    if len <=? cap then (None, keep buf)
    else
      let ab := split_at (Z.to_nat (len - len mod cap)) buf in
      (Some (fst ab), keep (snd ab)) in
  match mode st with
  | Unbuffered => (Some buf, keep EmptyString)
  | LineBuffered =>
      match split_last_newline text with
      | Some (line, rest) => (Some (pending st +:+ line), keep rest)
      | None => when_full
      end
  | FullyBuffered => when_full
  end.

(** *** The process *)

(** The process as the shim sees it; it is taken to have one thread.
    [written] is the text the process has passed to a stdio stream or to
    a descriptor, call by call, oldest first; [reached] is what the
    descriptors have received, which lags behind for a buffered stream.
    [handlers] is the signal disposition table (no entry: default
    action); [altstack] is the alternate signal stack in force, if one
    is; [frames] is the return addresses of the active calls, innermost
    first.  [stack_room] says whether the
    stack of the running thread can take the frame of a signal handler,
    and [mapped base size] whether the [size] bytes at [base] are memory
    that can be written.  [malloc_result], [sigaltstack_ok] and
    [sigaction_ok] say how the platform answers: the address [malloc]
    returns (0 for NULL), and whether [sigaltstack] and [sigaction]
    succeed. *)
Record world : Type := World {
  written : list output;
  handlers : gmap Z sigaction_t;
  altstack : option stack_t;
  frames : list Z;
  malloc_result : Z -> Z;
  sigaltstack_ok : stack_t -> bool;
  sigaction_ok : Z -> bool;
  reached : list output;
  stdout_state : stream_state;
  stderr_state : stream_state;
  stack_room : bool;
  mapped : Z -> Z -> bool
}.

Definition set_written (o : list output) (w : world) : world :=
  World o (handlers w) (altstack w) (frames w)
        (malloc_result w) (sigaltstack_ok w) (sigaction_ok w)
        (reached w) (stdout_state w) (stderr_state w)
        (stack_room w) (mapped w).

Definition set_handlers (h : gmap Z sigaction_t) (w : world) : world :=
  World (written w) h (altstack w) (frames w)
        (malloc_result w) (sigaltstack_ok w) (sigaction_ok w)
        (reached w) (stdout_state w) (stderr_state w)
        (stack_room w) (mapped w).

Definition set_altstack (s : option stack_t) (w : world) : world :=
  World (written w) (handlers w) s (frames w)
        (malloc_result w) (sigaltstack_ok w) (sigaction_ok w)
        (reached w) (stdout_state w) (stderr_state w)
        (stack_room w) (mapped w).

Definition set_reached (o : list output) (w : world) : world :=
  World (written w) (handlers w) (altstack w) (frames w)
        (malloc_result w) (sigaltstack_ok w) (sigaction_ok w)
        o (stdout_state w) (stderr_state w)
        (stack_room w) (mapped w).

Definition stream_of (s : stream) (w : world) : stream_state :=
  match s with stdout => stdout_state w | stderr => stderr_state w end.

Definition set_stream (s : stream) (st : stream_state) (w : world) : world :=
  World (written w) (handlers w) (altstack w) (frames w)
        (malloc_result w) (sigaltstack_ok w) (sigaction_ok w)
        (reached w)
        (match s with stdout => st | stderr => stdout_state w end)
        (match s with stdout => stderr_state w | stderr => st end)
        (stack_room w) (mapped w).

(** How a piece of code ends: it returns, it ends the process with an
    exit status, or the process is killed or stopped by a signal (a
    stopped process runs nothing further until it is continued). *)
Inductive outcome (A : Type) : Type :=
| Returned (a : A)
| Exited (status : Z)
| Killed (sig : Z)
| Stopped (sig : Z).
Arguments Returned {A} a.
Arguments Exited {A} status.
Arguments Killed {A} sig.
Arguments Stopped {A} sig.

Definition proc (A : Type) : Type := world -> world * outcome A.

Definition ret {A} (a : A) : proc A := fun w => (w, Returned a).

Definition bind {A B} (c : proc A) (k : A -> proc B) : proc B :=
  fun w =>
    match c w with
    | (w', Returned a) => k a w'
    | (w', Exited st) => (w', Exited st)
    | (w', Killed sg) => (w', Killed sg)
    | (w', Stopped sg) => (w', Stopped sg)
    end.

Declare Scope proc_scope.
Delimit Scope proc_scope with proc.
Notation "x <- c ;; k" := (bind c (fun x => k))
  (at level 100, c at next level, right associativity) : proc_scope.
Notation "c ;; k" := (bind c (fun _ => k))
  (at level 100, right associativity) : proc_scope.
Local Open Scope proc_scope.

(** *** The library calls the shim makes *)

(** The text is recorded as written, goes into the stream, and reaches
    the descriptor when the stream's buffering lets it through. *)
Definition fprintf (s : stream) (text : string) : proc Z :=
  fun w =>
    let r := put (stream_of s w) text in
    (set_stream s (snd r)
       (set_reached
          (reached w ++
             match fst r with
             | Some out => [Output (fileno s) (ViaStream s) out]
             | None => []
             end)
          (set_written
             (written w ++ [Output (fileno s) (ViaStream s) text]) w)),
     Returned (Z.of_nat (String.length text))).

Definition malloc (size : Z) : proc Z :=
  fun w => (w, Returned (malloc_result w size)).

Definition sigaltstack (ss : stack_t) : proc Z :=
  fun w =>
    if sigaltstack_ok w ss then (set_altstack (Some ss) w, Returned 0)
    else (w, Returned (-1)).

Definition sigaction (sig : Z) (sa : sigaction_t) : proc Z :=
  fun w =>
    if sigaction_ok w sig
    then (set_handlers (<[sig := sa]> (handlers w)) w, Returned 0)
    else (w, Returned (-1)).

(** [backtrace(array, size)]: the innermost [size] return addresses. *)
Definition backtrace (size : Z) : proc (list Z) :=
  fun w => (w, Returned (take (Z.to_nat size) (frames w))).

(** The process ends at once; the low eight bits of the argument are the
    exit status.  No stdio stream is flushed: text still pending in one
    never reaches its descriptor. *)
Definition _exit {A} (status : Z) : proc A :=
  fun w => (w, Exited (Z.land status 255)).

(** What the kernel does with a signal that has no handler: it ends the
    process, with or without a core dump, ignores the signal, stops the
    process or continues it. *)
Inductive default_action : Set := Term | Ign | Core | Stop | Cont.

Section Platform.

(** From [<signal.h>]. *)
Variables SIGSEGV SIGABRT SIGBUS : Z.
Variables SA_SIGINFO SA_ONSTACK : Z.
(** The [si_code] of a signal the kernel itself raises. *)
Variable SI_KERNEL : Z.
(** [%p] of a pointer, and the line [backtrace_symbols_fd] prints for a
    return address (without its newline). *)
Variable fmt_p : Z -> string.
Variable symbol_line : Z -> string.
(** The default action of each signal; nothing for a number that is not
    a signal's. *)
Variable default : Z -> option default_action.

(** The lines go to the descriptor itself, past any stream. *)
Definition backtrace_symbols_fd (array : list Z) (size : Z) (fd : Z)
  : proc unit :=
  fun w =>
    let lines :=
      (fun a => Output fd Direct (symbol_line a +:+ nl))
        <$> take (Z.to_nat size) array in
    (set_reached (reached w ++ lines) (set_written (written w ++ lines) w),
     Returned tt).

Definition segfault_handler (sig : Z) (si : siginfo_t) : proc unit :=
  fprintf stderr (nl +:+ "=== SIGNAL " +:+ fmt_d sig +:+ " CAUGHT ===" +:+ nl);;
  fprintf stderr ("Fault address: " +:+ fmt_p (si_addr si) +:+ nl);;
  fprintf stderr ("SI code: " +:+ fmt_d (si_code si) +:+ nl);;
  array <- backtrace 100;;
  let size := Z.of_nat (length array) in
  fprintf stderr (nl +:+ "Backtrace (" +:+ fmt_d size +:+ " frames):" +:+ nl);;
  backtrace_symbols_fd array size STDERR_FILENO;;
  _exit (CInt.add 128 sig).

Definition install_handler : proc unit :=
  sp <- malloc 65536;;
  let ss := Stack sp 65536 0 in
  sigaltstack ss;;
  let sa := SigAction fn_segfault_handler (Z.lor SA_SIGINFO SA_ONSTACK) [] in
  sigaction SIGSEGV sa;;
  sigaction SIGABRT sa;;
  sigaction SIGBUS sa;;
  fprintf stderr ("[seghandler] Signal handlers installed" +:+ nl);;
  ret tt.

(** Where the kernel puts the frame of a handler registered with [sa]:
    on the alternate stack when the action asks for it ([SA_ONSTACK]) and
    one is registered, otherwise on the stack of the interrupted thread.
    The handler can start only if that place can be written. *)
Definition on_altstack (sa : sigaction_t) (w : world) : option stack_t :=
  if Z.land (sa_flags sa) SA_ONSTACK =? 0 then None else altstack w.

Definition handler_can_start (sa : sigaction_t) (w : world) : bool :=
  match on_altstack sa w with
  | Some ss => mapped w (ss_sp ss) (ss_size ss)
  | None => stack_room w
  end.

(** The kernel starts the handler of action [sa] for signal [sig]. *)
Definition run_handler (sa : sigaction_t) (sig : Z) (si : siginfo_t)
  : proc unit :=
  match sa_sigaction sa with
  | fn_segfault_handler => segfault_handler sig si
  end.

(** What the kernel does when it cannot write the frame of the handler of
    signal [sig]: it raises SIGSEGV itself.  If [sig] was SIGSEGV that
    one is fatal; otherwise it goes to the handler of SIGSEGV, if there is
    one and it can start, and is fatal if not. *)
Definition force_sigsegv (sig : Z) : proc unit :=
  fun w =>
    if sig =? SIGSEGV then (w, Killed SIGSEGV)
    else
      match handlers w !! SIGSEGV with
      | Some sa =>
          if handler_can_start sa w
          then run_handler sa SIGSEGV (SigInfo SI_KERNEL 0) w
          else (w, Killed SIGSEGV)
      | None => (w, Killed SIGSEGV)
      end.

(** Delivery of signal [sig] with information [si].  With a handler
    registered the kernel starts it, or raises SIGSEGV if it cannot write
    the handler's frame.  Without one the signal's default action is
    taken; a number that is not a signal's is not delivered at all, and
    the process goes on. *)
Definition deliver (sig : Z) (si : siginfo_t) : proc unit :=
  fun w =>
    match handlers w !! sig with
    | Some sa =>
        if handler_can_start sa w then run_handler sa sig si w
        else force_sigsegv sig w
    | None =>
        match default sig with
        | Some Term | Some Core => (w, Killed sig)
        | Some Stop => (w, Stopped sig)
        | Some Ign | Some Cont | None => (w, Returned tt)
        end
    end.

(** The action [install_handler] registers. *)
Definition installed_action : sigaction_t :=
  SigAction fn_segfault_handler (Z.lor SA_SIGINFO SA_ONSTACK) [].

(** The disposition table after three calls of [sigaction], each of which
    the kernel may have refused. *)
Definition handlers_after (w : world) : gmap Z sigaction_t :=
  let reg sig h :=
    if sigaction_ok w sig then <[sig := installed_action]> h else h in
  reg SIGBUS (reg SIGABRT (reg SIGSEGV (handlers w))).

End Platform.

(** The four lines the handler prints with [fprintf], for signal [sig]
    with information [si] and [n] captured frames. *)
Definition report_lines
  (fmt_p : Z -> string) (sig : Z) (si : siginfo_t) (n : Z) : list string :=
  [ nl +:+ "=== SIGNAL " +:+ fmt_d sig +:+ " CAUGHT ===" +:+ nl;
    "Fault address: " +:+ fmt_p (si_addr si) +:+ nl;
    "SI code: " +:+ fmt_d (si_code si) +:+ nl;
    nl +:+ "Backtrace (" +:+ fmt_d n +:+ " frames):" +:+ nl ].

Definition confirmation : output :=
  Output STDERR_FILENO (ViaStream stderr)
         ("[seghandler] Signal handlers installed" +:+ nl).


End SegHandler.

(** ** A concrete platform: Linux on x86-64 with glibc

    The values of [<signal.h>] there, a [%p] that prints hexadecimal, and a
    symbol line for an address with no symbol information. *)
Module Linux.

Import SegHandler.

Definition SIGSEGV : Z := 11.
Definition SIGABRT : Z := 6.
Definition SIGBUS : Z := 7.
Definition SA_SIGINFO : Z := 4.
Definition SA_ONSTACK : Z := 134217728.
Definition SI_KERNEL : Z := 128.

Definition fmt_p (a : Z) : string :=
  if a =? 0 then "(nil)" else HexString.of_Z a.

Definition symbol_line (a : Z) : string := "[" +:+ HexString.of_Z a +:+ "]".

(** The default actions of signal(7): SIGCHLD, SIGURG and SIGWINCH are
    ignored, SIGCONT continues, SIGSTOP, SIGTSTP, SIGTTIN and SIGTTOU stop,
    SIGQUIT, SIGILL, SIGTRAP, SIGABRT, SIGBUS, SIGFPE, SIGSEGV, SIGXCPU,
    SIGXFSZ and SIGSYS dump core, the others terminate. *)
Definition default (sig : Z) : option default_action :=
  if (sig <? 1) || (64 <? sig) then None
  else if (sig =? 17) || (sig =? 23) || (sig =? 28) then Some Ign
  else if sig =? 18 then Some Cont
  else if (sig =? 19) || (sig =? 20) || (sig =? 21) || (sig =? 22)
  then Some Stop
  else if (sig =? 3) || (sig =? 4) || (sig =? 5) || (sig =? 6) || (sig =? 7)
          || (sig =? 8) || (sig =? 11) || (sig =? 24) || (sig =? 25)
          || (sig =? 31) then Some Core
  else Some Term.

(** The streams at start-up, on a terminal: standard error unbuffered,
    standard output line-buffered, nothing pending. *)
Definition stdout_at_startup : stream_state :=
  StreamState LineBuffered EmptyString 8192.
Definition stderr_at_startup : stream_state :=
  StreamState Unbuffered EmptyString 8192.

(** A process at start-up in which every call of the shim succeeds. *)
Definition healthy (stack : list Z) : world :=
  World [] ∅ None stack
        (fun _ => 139637976727568)
        (fun ss => negb (ss_sp ss =? 0) && (2048 <=? ss_size ss))
        (fun sig => (1 <=? sig) && (sig <=? 64)
                    && negb (sig =? 9) && negb (sig =? 19))
        [] stdout_at_startup stderr_at_startup
        true (fun base _ => negb (base =? 0)).

(** A process at start-up in which none does: no memory is left, and the
    kernel refuses [sigaltstack] and [sigaction]. *)
Definition starved (stack : list Z) : world :=
  World [] ∅ None stack (fun _ => 0) (fun _ => false) (fun _ => false)
        [] stdout_at_startup stderr_at_startup
        true (fun base _ => negb (base =? 0)).

Definition install_handler : proc unit :=
  SegHandler.install_handler SIGSEGV SIGABRT SIGBUS SA_SIGINFO SA_ONSTACK.

Definition deliver : Z -> siginfo_t -> proc unit :=
  SegHandler.deliver SIGSEGV SA_ONSTACK SI_KERNEL fmt_p symbol_line default.

End Linux.

(** ** Auxiliary notions for the properties below *)
Module Auxiliary.

Import TestMath SegHandler.

(** Classes of binary64 values, read off their decoded form: the sign bit
    is clear or the value is NaN; and the value is a number (not NaN)
    whose sign bit is clear: [+0], a positive finite number or
    [+infinity]. *)
Definition sign_clear (s : spec_float) : bool :=
  match s with
  | S754_nan => true
  | S754_zero b | S754_infinity b | S754_finite b _ _ => negb b
  end.

Definition nonneg_number (s : spec_float) : bool :=
  match s with
  | S754_nan => false
  | S754_zero b | S754_infinity b | S754_finite b _ _ => negb b
  end.

(** The literal each hlp_ function stores. *)
Definition signature_literal (P : primitive) : literal :=
  match P with
  | prim_add => lit_add
  | prim_multiply => lit_multiply
  | prim_sqrt_approx => lit_sqrt_approx
  end.

(** A Linux process at start-up with no memory left: [malloc] returns
    NULL, while the kernel, which looks only at the size of an alternate
    stack, accepts it, and accepts every registration. *)
Definition out_of_memory (stack : list Z) : world :=
  World [] ∅ None stack
        (fun _ => 0)
        (fun ss => 2048 <=? ss_size ss)
        (fun sig => (1 <=? sig) && (sig <=? 64)
                    && negb (sig =? 9) && negb (sig =? 19))
        [] Linux.stdout_at_startup Linux.stderr_at_startup
        true (fun base _ => negb (base =? 0)).




(** Several formatted writes into a stream, one after the other: the
    pieces handed to the descriptor, and the stream afterwards. *)
Fixpoint puts (st : stream_state) (texts : list string)
  : list string * stream_state :=
  match texts with
  | [] => ([], st)
  | t :: ts =>
      let r := put st t in
      let rs := puts (snd r) ts in
      (match fst r with Some out => [out] | None => [] end ++ fst rs, snd rs)
  end.

(** The pieces of a list, one after the other, as one text. *)
Fixpoint concat_text (l : list string) : string :=
  match l with
  | [] => EmptyString
  | t :: ts => t +:+ concat_text ts
  end.

End Auxiliary.

(** * Properties *)

(** ** Wrap-around of [int] arithmetic *)
Module CIntFacts.

Import CInt.

(** Closes a goal that a numeral lies in the range of [int]. *)
Ltac int_range := unfold in_range, INT_MIN, INT_MAX in *; lia.

Lemma wrap_int_range z : in_range (wrap_int z).
Proof.
  unfold in_range, wrap_int, INT_MIN, INT_MAX, modulus.
  pose proof (Z.mod_pos_bound (z - - 2 ^ 31) (2 ^ 32)). lia.
Qed.

Lemma wrap_int_id z : in_range z -> wrap_int z = z.
Proof.
  unfold in_range, wrap_int, INT_MIN, INT_MAX, modulus. intros H.
  rewrite Z.mod_small; lia.
Qed.

Lemma wrap_int_congr z : wrap_int z mod modulus = z mod modulus.
Proof.
  unfold wrap_int, INT_MIN, modulus.
  rewrite Zplus_mod, Zmod_mod, <- Zplus_mod. f_equal. lia.
Qed.

Lemma wrap_int_unique r z :
  in_range r -> r mod modulus = z mod modulus -> wrap_int z = r.
Proof.
  intros Hr Hm. rewrite <- (wrap_int_id r Hr).
  unfold wrap_int. f_equal.
  unfold modulus in *. rewrite Zminus_mod, <- Hm, <- Zminus_mod. reflexivity.
Qed.

End CIntFacts.

(** ** The fixture library *)
Module TestMathSpec.

Import CInt CIntFacts TestMath.

(** One turn of the loop, for a counter that has not overflowed. *)
Lemma sqrt_loop_step x i guess :
  INT_MIN <= i < 10 ->
  sqrt_loop x i guess = sqrt_loop x (i + 1) (newton_update x guess).
Proof.
  intros Hi. rewrite sqrt_loop_equation_1.
  destruct (Z_lt_dec i 10) as [Hlt | Hge]; [| lia].
  cbn. unfold CInt.add. rewrite wrap_int_id; [reflexivity | int_range].
Qed.

Lemma sqrt_loop_exit x i guess : 10 <= i -> sqrt_loop x i guess = guess.
Proof.
  intros Hi. rewrite sqrt_loop_equation_1.
  destruct (Z_lt_dec i 10) as [Hlt | Hge]; [lia | reflexivity].
Qed.

(** Entered with [n] turns to go, the loop applies the update [n] times. *)
Lemma sqrt_loop_iter x n : forall i guess,
  0 <= i -> i + Z.of_nat n = 10 ->
  sqrt_loop x i guess = Nat.iter n (newton_update x) guess.
Proof.
  induction n as [| n IH]; intros i guess Hi Hn.
  - apply sqrt_loop_exit. lia.
  - rewrite sqrt_loop_step by (unfold INT_MIN; lia).
    rewrite IH by lia.
    rewrite Nat.iter_succ_r. reflexivity.
Qed.

(** C1.  For every 64-bit float [x], [testmath_sqrt_approx x] is exactly
    [0.0] when [x <= 0.0], and otherwise the result of exactly ten Newton
    updates [g <- (g + x/g) / 2] starting from [g = x/2]: the function
    agrees with the specification's wording on every input, NaN and the
    infinities included. *)
Theorem testmath_sqrt_approx_ten_newton_steps (x : float) :
  testmath_sqrt_approx x =
    if (x <=? 0)%float then 0%float
    else Nat.iter 10 (fun g => ((g + x / g) / 2)%float) (x / 2)%float.
Proof.
  unfold testmath_sqrt_approx.
  destruct (x <=? 0)%float; [reflexivity |].
  rewrite (sqrt_loop_iter x 10 0 (x / 2)%float) by lia.
  reflexivity.
Qed.

(** The scenarios of the specification: the inputs [16.0], [0.0] and
    [-1.0]; and the inputs the comparison [x <= 0.0] treats specially. *)
Example sqrt_approx_16 : testmath_sqrt_approx 16%float = 4%float.
Proof. vm_compute. reflexivity. Qed.

Example sqrt_approx_0 : testmath_sqrt_approx 0%float = 0%float.
Proof. vm_compute. reflexivity. Qed.

Example sqrt_approx_neg1 : testmath_sqrt_approx (-1)%float = 0%float.
Proof. vm_compute. reflexivity. Qed.

Example sqrt_approx_neg_zero : testmath_sqrt_approx (-0)%float = 0%float.
Proof. vm_compute. reflexivity. Qed.

Example sqrt_approx_nan : testmath_sqrt_approx nan = nan.
Proof. vm_compute. reflexivity. Qed.

(** The count is ten whether or not the guess has settled: for the largest
    finite double the tenth guess is still far from the root, and an
    eleventh update would change it. *)
Example sqrt_approx_not_converged :
  let x := 0x1.fffffffffffffp+1023%float in
  testmath_sqrt_approx x = 0x1.fffffffffffffp+1012%float /\
  newton_update x (testmath_sqrt_approx x) <> testmath_sqrt_approx x.
Proof. vm_compute. split; [reflexivity | discriminate]. Qed.

(** C4.  For 32-bit signed [a] and [b], [testmath_add] returns the 32-bit
    signed integer congruent to [a + b] modulo [2^32], and
    [testmath_multiply] the one congruent to [a * b]; the exact sum or
    product when it fits.  [add(2,3)] is [5], and overflow wraps:
    [INT_MAX + 1] is [INT_MIN]. *)
Theorem testmath_add_multiply_wrap (a b : Z) :
  in_range a -> in_range b ->
  (in_range (testmath_add a b) /\
   testmath_add a b mod 2 ^ 32 = (a + b) mod 2 ^ 32 /\
   (in_range (a + b) -> testmath_add a b = a + b)) /\
  (in_range (testmath_multiply a b) /\
   testmath_multiply a b mod 2 ^ 32 = (a * b) mod 2 ^ 32 /\
   (in_range (a * b) -> testmath_multiply a b = a * b)) /\
  testmath_add 2 3 = 5 /\
  testmath_add INT_MAX 1 = INT_MIN.
Proof.
  intros _ _. unfold testmath_add, testmath_multiply, CInt.add, CInt.mul.
  repeat split;
    try apply wrap_int_range; try apply wrap_int_congr; try apply wrap_int_id.
Qed.

Lemma in_range_INT_MAX : in_range 2147483647.
Proof. int_range. Qed.

Lemma in_range_2 : in_range 2.
Proof. int_range. Qed.

Lemma testmath_add_multiply_wrap_witness :
  testmath_add 2147483647 2 mod 2 ^ 32 = (2147483647 + 2) mod 2 ^ 32 /\
  testmath_multiply 2147483647 2 mod 2 ^ 32 = (2147483647 * 2) mod 2 ^ 32.
Proof.
  destruct (testmath_add_multiply_wrap 2147483647 2
              in_range_INT_MAX in_range_2)
    as [[_ [Hadd _]] [[_ [Hmul _]] _]].
  exact (conj Hadd Hmul).
Defined.

(** C10.  [testmath_add] and [testmath_multiply] are commutative on
    32-bit signed integers. *)
Theorem testmath_add_multiply_comm (a b : Z) :
  in_range a -> in_range b ->
  testmath_add a b = testmath_add b a /\
  testmath_multiply a b = testmath_multiply b a.
Proof.
  intros _ _. unfold testmath_add, testmath_multiply, CInt.add, CInt.mul.
  rewrite (Z.add_comm a b), (Z.mul_comm a b). split; reflexivity.
Qed.

Lemma testmath_add_multiply_comm_witness :
  testmath_add 2147483647 (-5) = testmath_add (-5) 2147483647 /\
  testmath_multiply 2147483647 (-5) = testmath_multiply (-5) 2147483647.
Proof.
  apply (testmath_add_multiply_comm 2147483647 (-5)); int_range.
Defined.

(** C9.  The guard [x <= 0.0] does not keep the running guess positive.
    For the smallest positive double, [x = 2^-1074], the first guess [x / 2]
    rounds to [0.0]; the first turn of the loop divides [x] by that zero,
    and the function returns [+infinity].  For [x = +infinity] the first
    turn divides infinity by infinity and the function returns NaN. *)
Theorem sqrt_approx_guess_not_positive :
  let x := 0x1p-1074%float in
  (0 <? x)%float = true /\
  (x <=? 0)%float = false /\
  (x / 2)%float = 0%float /\
  (x / (x / 2))%float = infinity /\
  testmath_sqrt_approx x = infinity /\
  testmath_sqrt_approx infinity = nan.
Proof. vm_compute. repeat split; reflexivity. Qed.

(** Results of an hlp_ function on a valid out-slot. *)
Lemma store_valid m sign v :
  valid_slot m sign ->
  exists a, sign = PSlot a /\ store sign v m = Some (<[a := v]> m).
Proof.
  unfold valid_slot, load, store.
  destruct sign as [| l | f | a]; intros [p Hp]; try discriminate.
  exists a. split; [reflexivity |].
  destruct (decide (is_Some (m !! a))) as [_ | Hn]; [reflexivity |].
  exfalso. apply Hn. exists p. exact Hp.
Qed.

Lemma hlp_result P m sign :
  valid_slot m sign ->
  exists a lit,
    sign = PSlot a /\
    hlp P sign m = Some (<[a := PLit lit]> m, PFun (impl P)) /\
    literal_text lit =
      match P with
      | prim_add | prim_multiply => "ii_i"
      | prim_sqrt_approx => "d_d"
      end.
Proof.
  intros Hv.
  destruct P; cbn [hlp impl];
    unfold hlp_add, hlp_multiply, hlp_sqrt_approx;
    [ destruct (store_valid m sign (PLit lit_add) Hv) as [a [-> Hs]]
    | destruct (store_valid m sign (PLit lit_multiply) Hv) as [a [-> Hs]]
    | destruct (store_valid m sign (PLit lit_sqrt_approx) Hv) as [a [-> Hs]] ];
    rewrite Hs; cbn; eexists a, _; repeat split; reflexivity.
Qed.

Lemma string_at_literal lit :
  string_at (PLit lit) = Some (literal_text lit) /\
  last (static_bytes lit) = Some NUL.
Proof. destruct lit; split; reflexivity. Qed.

Lemma signature_describes_prototype P lit :
  literal_text lit =
    match P with
    | prim_add | prim_multiply => "ii_i"
    | prim_sqrt_approx => "d_d"
    end ->
  prototype_of_signature (literal_text lit) = Some (prototype_of (impl P)).
Proof. intros ->. destruct P; reflexivity. Qed.

(** C5.  For every shipped primitive [P], calling its hlp_ function with a
    valid out-slot succeeds; the slot then holds a non-null pointer into
    static storage, at a NUL-terminated string that is well formed and
    describes the declared parameter and return types of [P]'s
    implementation (["ii_i"] for add and multiply, ["d_d"] for
    sqrt_approx); the value returned is the non-null address of that
    implementation.  No other slot changes. *)
Theorem hlp_signature_and_address
  (P : primitive) (sign : pointer) (m : gmap Z pointer) :
  valid_slot m sign ->
  exists m' p s,
    hlp P sign m = Some (m', PFun (impl P)) /\
    PFun (impl P) <> NULL /\
    load sign m' = Some p /\
    p <> NULL /\
    is_static p = true /\
    (exists lit, p = PLit lit /\ last (static_bytes lit) = Some NUL) /\
    string_at p = Some s /\
    s = match P with
        | prim_add | prim_multiply => "ii_i"
        | prim_sqrt_approx => "d_d"
        end /\
    well_formed_signature s /\
    prototype_of_signature s = Some (prototype_of (impl P)) /\
    (forall a, sign <> PSlot a -> m' !! a = m !! a).
Proof.
  intros Hv.
  destruct (hlp_result P m sign Hv) as (a & lit & -> & Hh & Ht).
  destruct (string_at_literal lit) as [Hs Hz].
  exists (<[a := PLit lit]> m), (PLit lit), (literal_text lit).
  split; [exact Hh |].
  split; [discriminate |].
  split; [cbn; apply lookup_insert_eq |].
  split; [discriminate |].
  split; [reflexivity |].
  split; [exists lit; split; [reflexivity | exact Hz] |].
  split; [exact Hs |].
  split; [exact Ht |].
  pose proof (signature_describes_prototype P lit Ht) as Hp.
  split.
  { unfold well_formed_signature, prototype_of_signature in *.
    destruct (parse_signature (literal_text lit)); [eauto | discriminate]. }
  split; [exact Hp |].
  intros b Hb. apply lookup_insert_ne. congruence.
Qed.

Lemma hlp_signature_and_address_witness :
  exists m' p s,
    hlp prim_sqrt_approx (PSlot 8) {[ 8 := NULL ]}
      = Some (m', PFun fn_testmath_sqrt_approx) /\
    load (PSlot 8) m' = Some p /\
    string_at p = Some s /\
    s = "d_d".
Proof.
  assert (Hv : valid_slot {[ 8 := NULL ]} (PSlot 8)).
  { exists NULL. cbn. apply lookup_singleton_eq. }
  destruct (hlp_signature_and_address prim_sqrt_approx (PSlot 8) _ Hv)
    as (m' & p & s & Hh & _ & Hl & _ & _ & _ & Hs & He & _).
  exists m', p, s. repeat split; assumption.
Defined.

Lemma exported_In s :
  exported s <->
  In s [ "testmath_add"; "testmath_multiply"; "testmath_sqrt_approx";
         "hlp_add"; "hlp_multiply"; "hlp_sqrt_approx" ].
Proof. unfold exported. rewrite list_elem_of_In. reflexivity. Qed.

(** C6, as stated, fails under either reading of "the primitive's own
    symbol name".  The library exports [testmath_add], but no symbol
    [hlp_testmath_add]; it exports [hlp_add], but no symbol [add]. *)
Lemma companion_not_named_after_exported_symbol :
  ~ (forall P : primitive,
       exported (symbol (impl P)) /\ exported ("hlp_" +:+ symbol (impl P)))
  /\
  ~ (forall P : primitive,
       exported (prim_name P) /\ exported ("hlp_" +:+ prim_name P)).
Proof.
  split; intros H; destruct (H prim_add) as [H1 H2].
  - apply exported_In in H2. cbn in H2. intuition discriminate.
  - apply exported_In in H1. cbn in H1. intuition discriminate.
Qed.

(** C6, amended.  For each primitive [<name>] the library ships (add,
    multiply, sqrt_approx) it exports the implementation under the symbol
    [testmath_<name>] and a companion under the symbol [hlp_<name>]: the
    companion is named after the primitive's short name, which is the
    implementation's symbol without its [testmath_] prefix.  Both are
    functions of the translation unit with external linkage. *)
Theorem primitive_and_companion_exported (P : primitive) :
  symbol (impl P) = "testmath_" +:+ prim_name P /\
  symbol (companion P) = "hlp_" +:+ prim_name P /\
  exported ("testmath_" +:+ prim_name P) /\
  exported ("hlp_" +:+ prim_name P) /\
  dlsym ("testmath_" +:+ prim_name P) = Some (PFun (impl P)) /\
  dlsym ("hlp_" +:+ prim_name P) = Some (PFun (companion P)) /\
  call_hlp (PFun (companion P)) = hlp P /\
  linkage_of (impl P) = External /\
  linkage_of (companion P) = External /\
  prototype_of (companion P) = Proto [Tptr (Tptr Tchar)] (Tptr Tvoid).
Proof.
  destruct P; repeat split; apply exported_In; cbn; tauto.
Qed.

(** The second scenario of the specification: resolve [hlp_add], call it,
    and dispatch through the returned pointer with [(2, 3)]. *)
Example discover_add_2_3 :
  discover_and_call "add" (PSlot 8) [Vint 2; Vint 3] {[ 8 := NULL ]}
  = Some ("ii_i", Vint 5).
Proof. vm_compute. reflexivity. Qed.

(** A direct call with arguments of the declared types is defined. *)
Lemma well_typed_call_defined P args :
  Forall2 has_type args (params (prototype_of (impl P))) ->
  is_Some (call (impl P) args).
Proof.
  intros Hargs.
  destruct P; cbn in Hargs;
    repeat match goal with
      | H : Forall2 _ _ (_ :: _) |- _ =>
          apply Forall2_cons_inv_r in H;
          destruct H as (? & ? & ? & ? & ->)
      | H : Forall2 _ _ [] |- _ => apply Forall2_nil_inv_r in H; subst
      | H : has_type ?v _ |- _ =>
          destruct v; cbn in H; try contradiction; clear H
      end;
    cbn; eauto.
Qed.

(** C7.  For every primitive [P] and every argument list of the types
    [P]'s implementation declares, the host's call through the code
    pointer that [hlp_P] returned, at the function type the signature
    string in the out-slot describes, is defined and gives the result of
    calling the implementation directly. *)
Theorem dispatch_through_hlp_agrees_with_direct_call
  (P : primitive) (sign : pointer) (m : gmap Z pointer) (args : list val) :
  valid_slot m sign ->
  Forall2 has_type args (params (prototype_of (impl P))) ->
  exists m' code sig_ptr,
    hlp P sign m = Some (m', code) /\
    load sign m' = Some sig_ptr /\
    dispatch sig_ptr code args = call (impl P) args /\
    is_Some (call (impl P) args).
Proof.
  intros Hv Hargs.
  destruct (hlp_result P m sign Hv) as (a & lit & -> & Hh & Ht).
  destruct (string_at_literal lit) as [Hs _].
  exists (<[a := PLit lit]> m), (PFun (impl P)), (PLit lit).
  split; [exact Hh |].
  split; [cbn; apply lookup_insert_eq |].
  split.
  - unfold dispatch. rewrite Hs. cbn.
    rewrite (signature_describes_prototype P lit Ht). cbn.
    destruct (decide (prototype_of (impl P) = prototype_of (impl P)));
      [reflexivity | contradiction].
  - apply well_typed_call_defined. exact Hargs.
Qed.

Lemma dispatch_through_hlp_agrees_with_direct_call_witness :
  exists m' code sig_ptr,
    hlp prim_add (PSlot 8) {[ 8 := NULL ]} = Some (m', code) /\
    load (PSlot 8) m' = Some sig_ptr /\
    dispatch sig_ptr code [Vint 2; Vint 3] = Some (Vint 5).
Proof.
  assert (Hv : valid_slot {[ 8 := NULL ]} (PSlot 8)).
  { exists NULL. cbn. apply lookup_singleton_eq. }
  assert (Ht : Forall2 has_type [Vint 2; Vint 3]
                 (params (prototype_of (impl prim_add)))).
  { repeat constructor; cbn; int_range. }
  destruct (dispatch_through_hlp_agrees_with_direct_call
              prim_add (PSlot 8) _ [Vint 2; Vint 3] Hv Ht)
    as (m' & code & sig_ptr & Hh & Hl & Hd & _).
  exists m', code, sig_ptr. rewrite Hd. repeat split; assumption.
Defined.

End TestMathSpec.

(** ** The crash diagnostic shim *)
Module SegHandlerSpec.

Import CInt CIntFacts SegHandler Auxiliary.


(** *** Text through a stream *)

Lemma append_assoc (a b c : string) : (a +:+ b) +:+ c = a +:+ (b +:+ c).
Proof.
  induction a as [| ch a IH]; [reflexivity |].
  change (String ch ((a +:+ b) +:+ c) = String ch (a +:+ (b +:+ c))).
  f_equal. exact IH.
Qed.

Lemma append_empty_r (s : string) : s +:+ EmptyString = s.
Proof.
  induction s as [| ch s IH]; [reflexivity |].
  change (String ch (s +:+ EmptyString) = String ch s).
  f_equal. exact IH.
Qed.





Lemma split_last_newline_joins s a b :
  split_last_newline s = Some (a, b) -> a +:+ b = s.
Proof.
  revert a b. induction s as [| ch s IH]; intros a b;
    cbn [split_last_newline]; [discriminate |].
  destruct (split_last_newline s) as [[a' b'] |].
  - intros [= <- <-].
    change (String ch (a' +:+ b') = String ch s).
    f_equal. apply IH. reflexivity.
  - destruct (Ascii.eqb ch "010"); [| discriminate].
    intros [= <- <-]. reflexivity.
Qed.

Lemma split_at_joins k : forall s,
  fst (split_at k s) +:+ snd (split_at k s) = s.
Proof.
  induction k as [| k IH]; intros s; [reflexivity |].
  destruct s as [| ch s]; [reflexivity |].
  cbn [split_at fst snd].
  change (String ch (fst (split_at k s) +:+ snd (split_at k s))
          = String ch s).
  f_equal. apply IH.
Qed.



(** Whatever the buffering, text is kept: what a write hands to the
    descriptor, followed by what stays pending, is what was pending before
    followed by the text written. *)
Lemma put_keeps_text st text :
  match fst (put st text) with Some out => out | None => EmptyString end
    +:+ pending (snd (put st text))
  = pending st +:+ text.
Proof.
  unfold put.
  set (buf := pending st +:+ text).
  set (len := Z.of_nat (String.length buf)).
  set (cap := Z.pos (capacity st)).
  assert (Hfull :
    forall r : option string * stream_state,
      r = (if len <=? cap
           then (None, StreamState (mode st) buf (capacity st))
           else (Some (fst (split_at (Z.to_nat (len - len mod cap)) buf)),
                 StreamState (mode st)
                   (snd (split_at (Z.to_nat (len - len mod cap)) buf))
                   (capacity st))) ->
      match fst r with Some out => out | None => EmptyString end
        +:+ pending (snd r) = buf).
  { intros r ->. destruct (len <=? cap); cbn [fst snd pending];
      [reflexivity | apply split_at_joins]. }
  destruct (mode st).
  - cbn. apply append_empty_r.
  - destruct (split_last_newline text) as [[a b] |] eqn:Hs.
    + cbn [fst snd pending]. rewrite append_assoc.
      rewrite (split_last_newline_joins _ _ _ Hs). reflexivity.
    + apply Hfull. reflexivity.
  - apply Hfull. reflexivity.
Qed.



Lemma puts_keeps_text texts : forall st,
  concat_text (fst (puts st texts)) +:+ pending (snd (puts st texts))
  = pending st +:+ concat_text texts.
Proof.
  induction texts as [| t ts IH]; intros st.
  - cbn. symmetry. apply append_empty_r.
  - cbn [puts concat_text fst snd].
    pose proof (put_keeps_text st t) as Hp.
    specialize (IH (snd (put st t))).
    destruct (fst (put st t)) as [out |].
    + cbn [app concat_text]. rewrite append_assoc, IH, <- append_assoc, Hp.
      apply append_assoc.
    + cbn [app].
      change (pending (snd (put st t)) = pending st +:+ t) in Hp.
      rewrite IH, Hp. apply append_assoc.
Qed.

Lemma puts_length texts : forall st,
  (length (fst (puts st texts)) <= length texts)%nat.
Proof.
  induction texts as [| t ts IH]; intros st; cbn; [lia |].
  specialize (IH (snd (put st t))).
  destruct (fst (put st t)); cbn; lia.
Qed.

(** One formatted write to [stderr]. *)
Lemma fprintf_stderr text w :
  fprintf stderr text w =
    (World (written w ++ [Output STDERR_FILENO (ViaStream stderr) text])
           (handlers w) (altstack w) (frames w)
           (malloc_result w) (sigaltstack_ok w) (sigaction_ok w)
           (reached w
              ++ match fst (put (stderr_state w) text) with
                 | Some out => [Output STDERR_FILENO (ViaStream stderr) out]
                 | None => []
                 end)
           (stdout_state w) (snd (put (stderr_state w) text))
           (stack_room w) (mapped w),
     Returned (Z.of_nat (String.length text))).
Proof. reflexivity. Qed.

Lemma streamed_fmap (o : option string) (l : list string) :
  Output STDERR_FILENO (ViaStream stderr)
    <$> (match o with Some out => [out] | None => [] end ++ l)
  = match o with
    | Some out => [Output STDERR_FILENO (ViaStream stderr) out]
    | None => []
    end ++ (Output STDERR_FILENO (ViaStream stderr) <$> l).
Proof. destruct o; reflexivity. Qed.

(** Reads the fields of a world that is written out. *)
Ltac world_fields :=
  cbv beta iota;
  cbn [written handlers altstack frames malloc_result sigaltstack_ok
       sigaction_ok reached stdout_state stderr_state stack_room mapped].

(** Rewrites the next [fprintf (stderr, ...)] of a run into its effect. *)
Ltac fprintf_step := rewrite fprintf_stderr; world_fields.

Section Handler.

Variables SIGSEGV SA_ONSTACK SI_KERNEL : Z.
Variables (fmt_p symbol_line : Z -> string).
Variable default : Z -> option default_action.

(** What one run of the handler does, whatever the signal number and the
    buffering of [stderr]. *)
Lemma segfault_handler_run sig si w :
  let captured := take 100 (frames w) in
  let texts := report_lines fmt_p sig si (Z.of_nat (length captured)) in
  let lines :=
    (fun a => Output STDERR_FILENO Direct (symbol_line a +:+ nl))
      <$> captured in
  let through := puts (stderr_state w) texts in
  segfault_handler fmt_p symbol_line sig si w =
    (World
       (written w ++ (Output STDERR_FILENO (ViaStream stderr) <$> texts)
          ++ lines)
       (handlers w) (altstack w) (frames w)
       (malloc_result w) (sigaltstack_ok w) (sigaction_ok w)
       (reached w
          ++ (Output STDERR_FILENO (ViaStream stderr) <$> fst through)
          ++ lines)
       (stdout_state w) (snd through) (stack_room w) (mapped w),
     Exited (Z.land (CInt.add 128 sig) 255)).
Proof.
  intros captured texts lines through.
  unfold segfault_handler, bind.
  do 3 fprintf_step.
  unfold backtrace at 1. world_fields.
  change (Z.to_nat 100) with 100%nat. fold captured.
  fprintf_step.
  unfold backtrace_symbols_fd, set_reached, set_written, _exit.
  cbv zeta. world_fields.
  rewrite Nat2Z.id, firstn_all. fold lines.
  subst through texts. unfold report_lines. cbn [puts fst snd].
  rewrite !streamed_fmap, <- !app_assoc. reflexivity.
Qed.




(** C8.  Of what the handler writes, only the symbol lines are handed to
    the standard-error descriptor itself; the four lines before them go
    through the stdio stream [stderr], formatted by [fprintf]. *)
Theorem segfault_handler_writes_through_stdio
  (w : world) (sig : Z) (si : siginfo_t) :
  exists n new,
    written (segfault_handler fmt_p symbol_line sig si w).1
      = written w ++ new /\
    take 4 new
      = Output STDERR_FILENO (ViaStream stderr)
          <$> report_lines fmt_p sig si n /\
    ~ Forall (fun o => out_route o = Direct) new.
Proof.
  rewrite segfault_handler_run. cbn [fst written].
  eexists _, _. split; [reflexivity |].
  split; [reflexivity |].
  intros H. apply Forall_app in H as [H _].
  apply Forall_cons in H as [H _]. discriminate H.
Qed.

End Handler.

Section Install.

Variables SIGSEGV SIGABRT SIGBUS SA_SIGINFO SA_ONSTACK : Z.

Lemma install_handler_run w :
  let through :=
    put (stderr_state w) ("[seghandler] Signal handlers installed" +:+ nl) in
  install_handler SIGSEGV SIGABRT SIGBUS SA_SIGINFO SA_ONSTACK w =
    (World (written w ++ [confirmation])
           (handlers_after SIGSEGV SIGABRT SIGBUS SA_SIGINFO SA_ONSTACK w)
           (let ss := Stack (malloc_result w 65536) 65536 0 in
            if sigaltstack_ok w ss then Some ss else altstack w)
           (frames w) (malloc_result w) (sigaltstack_ok w) (sigaction_ok w)
           (reached w
              ++ match fst through with
                 | Some out => [Output STDERR_FILENO (ViaStream stderr) out]
                 | None => []
                 end)
           (stdout_state w) (snd through) (stack_room w) (mapped w),
     Returned tt).
Proof.
  intros through.
  unfold SegHandler.install_handler, bind, malloc, sigaltstack, sigaction,
    ret, SegHandler.handlers_after, SegHandler.installed_action,
    set_altstack, set_handlers.
  destruct (sigaltstack_ok w _); world_fields;
    destruct (sigaction_ok w SIGSEGV); world_fields;
    destruct (sigaction_ok w SIGABRT); world_fields;
    destruct (sigaction_ok w SIGBUS); world_fields;
    fprintf_step; reflexivity.
Qed.

Lemma handlers_after_refused w sig :
  sigaction_ok w sig = false ->
  handlers_after SIGSEGV SIGABRT SIGBUS SA_SIGINFO SA_ONSTACK w !! sig
  = handlers w !! sig.
Proof.
  intros Hno. unfold SegHandler.handlers_after.
  repeat match goal with
    | |- context [sigaction_ok w ?s] =>
        destruct (sigaction_ok w s) eqn:?;
        [rewrite lookup_insert_ne by congruence |]
    end; reflexivity.
Qed.

Lemma handlers_after_accepted w sig :
  sig ∈ [SIGSEGV; SIGABRT; SIGBUS] ->
  sigaction_ok w sig = true ->
  handlers_after SIGSEGV SIGABRT SIGBUS SA_SIGINFO SA_ONSTACK w !! sig
  = Some (installed_action SA_SIGINFO SA_ONSTACK).
Proof.
  intros Hin Hok. unfold SegHandler.handlers_after.
  set (sa := installed_action SA_SIGINFO SA_ONSTACK).
  assert (Hreg : forall s (h : gmap Z sigaction_t),
             (s = sig \/ h !! sig = Some sa) ->
             (if sigaction_ok w s then <[s := sa]> h else h) !! sig = Some sa).
  { intros s h [-> | Hh].
    - rewrite Hok. apply lookup_insert_eq.
    - destruct (sigaction_ok w s); [| exact Hh].
      destruct (decide (s = sig)) as [-> | Hne].
      + apply lookup_insert_eq.
      + rewrite lookup_insert_ne by exact Hne. exact Hh. }
  rewrite !elem_of_cons, elem_of_nil in Hin.
  destruct Hin as [-> | [-> | [-> | []]]].
  - apply Hreg. right. apply Hreg. right. apply Hreg. left. reflexivity.
  - apply Hreg. right. apply Hreg. left. reflexivity.
  - apply Hreg. left. reflexivity.
Qed.

(** C3, amended.  [install_handler] never checks a result.  Whether or not
    the allocation of the alternate stack, its registration, or any
    registration of the handler fails, the function returns to the host
    (it is never fatal) having printed the confirmation line and nothing
    else: a failure is not reported.  A signal whose registration the
    kernel refused keeps the disposition it had; one whose registration
    was accepted is handled by [segfault_handler]. *)
Theorem install_handler_ignores_failures (w : world) :
  exists w',
    install_handler SIGSEGV SIGABRT SIGBUS SA_SIGINFO SA_ONSTACK w
      = (w', Returned tt) /\
    written w' = written w ++ [confirmation] /\
    (forall sig, sigaction_ok w sig = false ->
                 handlers w' !! sig = handlers w !! sig) /\
    (forall sig, sig ∈ [SIGSEGV; SIGABRT; SIGBUS] ->
                 sigaction_ok w sig = true ->
                 handlers w' !! sig
                 = Some (installed_action SA_SIGINFO SA_ONSTACK)) /\
    (sigaltstack_ok w (Stack (malloc_result w 65536) 65536 0) = false ->
     altstack w' = altstack w).
Proof.
  eexists. split; [apply install_handler_run |]. cbn.
  split; [reflexivity |].
  split; [apply handlers_after_refused |].
  split; [apply handlers_after_accepted |].
  intros ->. reflexivity.
Qed.

End Install.

(** C3, as stated, fails.  In a process where the allocation and every
    registration fail, [install_handler] leaves the disposition table and
    the alternate stack as they were, prints no diagnostic, and still
    prints the confirmation line. *)
Lemma install_failure_is_silent :
  let w := Linux.starved [] in
  let w' := (Linux.install_handler w).1 in
  malloc_result w 65536 = 0 /\
  handlers w' = ∅ /\
  altstack w' = None /\
  written w' =
    [ Output 2 (ViaStream stderr)
        ("[seghandler] Signal handlers installed" +:+ nl) ].
Proof. cbn. repeat split; reflexivity. Qed.



End SegHandlerSpec.

(** * Further properties *)

(** ** Arithmetic of [testmath_add] and [testmath_multiply] *)
Module TestMathArith.

Import CInt CIntFacts TestMath.

Lemma wrap_int_eq z1 z2 :
  z1 mod modulus = z2 mod modulus -> wrap_int z1 = wrap_int z2.
Proof.
  intros H. apply wrap_int_unique; [apply wrap_int_range |].
  rewrite wrap_int_congr. symmetry. exact H.
Qed.

Lemma wrap_int_add_l a b : wrap_int (wrap_int a + b) = wrap_int (a + b).
Proof.
  apply wrap_int_eq.
  rewrite Zplus_mod, wrap_int_congr, <- Zplus_mod. reflexivity.
Qed.

Lemma wrap_int_add_r a b : wrap_int (a + wrap_int b) = wrap_int (a + b).
Proof. rewrite Z.add_comm, wrap_int_add_l, Z.add_comm. reflexivity. Qed.

Lemma wrap_int_mul_l a b : wrap_int (wrap_int a * b) = wrap_int (a * b).
Proof.
  apply wrap_int_eq.
  rewrite Zmult_mod, wrap_int_congr, <- Zmult_mod. reflexivity.
Qed.

Lemma wrap_int_mul_r a b : wrap_int (a * wrap_int b) = wrap_int (a * b).
Proof. rewrite Z.mul_comm, wrap_int_mul_l, Z.mul_comm. reflexivity. Qed.

(** X1.  Overflow in an intermediate result does not change the final
    one: [testmath_add] and [testmath_multiply] are associative, and
    [testmath_multiply] distributes over [testmath_add], for all
    arguments, whether or not any of the sums and products overflows. *)
Theorem testmath_ring_laws (a b c : Z) :
  testmath_add (testmath_add a b) c = testmath_add a (testmath_add b c) /\
  testmath_multiply (testmath_multiply a b) c
    = testmath_multiply a (testmath_multiply b c) /\
  testmath_multiply a (testmath_add b c)
    = testmath_add (testmath_multiply a b) (testmath_multiply a c).
Proof.
  unfold testmath_add, testmath_multiply, CInt.add, CInt.mul.
  rewrite !wrap_int_add_l, !wrap_int_add_r, !wrap_int_mul_l, !wrap_int_mul_r.
  repeat split; f_equal; ring.
Qed.

(** X2.  For 32-bit [a] and [b], [testmath_add a b] is [a + b] when that
    fits, [a + b - 2^32] when it exceeds [INT_MAX] and [a + b + 2^32] when
    it is below [INT_MIN].  The result is the true sum exactly when the
    sum fits, and an overflow shows in the signs: it happened exactly when
    both arguments are non-negative and the result is negative, or both
    are negative and the result is not. *)
Theorem testmath_add_overflow (a b : Z) :
  in_range a -> in_range b ->
  testmath_add a b =
    (if INT_MAX <? a + b then a + b - 2 ^ 32
     else if a + b <? INT_MIN then a + b + 2 ^ 32
     else a + b) /\
  (testmath_add a b = a + b <-> in_range (a + b)) /\
  (in_range (a + b) <->
   ~ (0 <= a /\ 0 <= b /\ testmath_add a b < 0) /\
   ~ (a < 0 /\ b < 0 /\ 0 <= testmath_add a b)).
Proof.
  intros Ha Hb.
  assert (Hf : testmath_add a b =
    (if INT_MAX <? a + b then a + b - 2 ^ 32
     else if a + b <? INT_MIN then a + b + 2 ^ 32
     else a + b)).
  { unfold testmath_add, CInt.add.
    destruct (INT_MAX <? a + b) eqn:H1; [| destruct (a + b <? INT_MIN) eqn:H2].
    - apply wrap_int_unique; [int_range |].
      unfold modulus. rewrite <- (Z_mod_plus_full (a + b - 2 ^ 32) 1).
      f_equal; lia.
    - apply wrap_int_unique; [int_range |].
      unfold modulus. rewrite <- (Z_mod_plus_full (a + b) 1).
      f_equal; lia.
    - apply wrap_int_id. int_range. }
  split; [exact Hf |].
  rewrite Hf.
  destruct (INT_MAX <? a + b) eqn:H1; [| destruct (a + b <? INT_MIN) eqn:H2];
    unfold in_range, INT_MIN, INT_MAX in *; lia.
Qed.

Lemma testmath_add_overflow_witness :
  testmath_add 2147483647 2147483647 = -2 /\
  testmath_add (-2147483648) (-1) = 2147483647.
Proof.
  assert (Hmax : in_range 2147483647) by int_range.
  assert (Hmin : in_range (-2147483648)) by int_range.
  assert (Hm1 : in_range (-1)) by int_range.
  destruct (testmath_add_overflow 2147483647 2147483647 Hmax Hmax)
    as [H1 _].
  destruct (testmath_add_overflow (-2147483648) (-1) Hmin Hm1) as [H2 _].
  split; [exact H1 | exact H2].
Defined.

(** X3.  For 32-bit [a] and [b], [testmath_multiply a b] is the true
    product exactly when the product fits.  [1] and [0] behave as in the
    integers, as does [0] for [testmath_add].  Multiplying by [-1] negates,
    except that [INT_MIN] is its own negation; either way the result is
    the inverse of [a] for [testmath_add]. *)
Theorem testmath_multiply_exact (a b : Z) :
  in_range a -> in_range b ->
  (testmath_multiply a b = a * b <-> in_range (a * b)) /\
  testmath_multiply a 1 = a /\
  testmath_multiply a 0 = 0 /\
  testmath_add a 0 = a /\
  testmath_multiply a (-1) = (if a =? INT_MIN then INT_MIN else - a) /\
  testmath_add a (testmath_multiply a (-1)) = 0.
Proof.
  intros Ha Hb. unfold testmath_multiply, testmath_add, CInt.mul, CInt.add.
  split; [| split; [| split; [| split; [| split]]]].
  - split.
    + intros <-. apply wrap_int_range.
    + apply wrap_int_id.
  - rewrite Z.mul_1_r. apply wrap_int_id, Ha.
  - rewrite Z.mul_0_r. reflexivity.
  - rewrite Z.add_0_r. apply wrap_int_id, Ha.
  - destruct (a =? INT_MIN) eqn:He.
    + apply Z.eqb_eq in He. subst a. reflexivity.
    + apply Z.eqb_neq in He. replace (a * -1) with (- a) by ring.
      apply wrap_int_id. int_range.
  - rewrite wrap_int_add_r. replace (a + a * -1) with 0 by ring. reflexivity.
Qed.

Lemma testmath_multiply_exact_witness :
  testmath_multiply (-2147483648) (-1) = -2147483648 /\
  (testmath_multiply 65536 65536 = 65536 * 65536 <->
   in_range (65536 * 65536)).
Proof.
  assert (Hmin : in_range (-2147483648)) by int_range.
  assert (Hm1 : in_range (-1)) by int_range.
  assert (Hk : in_range 65536) by int_range.
  destruct (testmath_multiply_exact (-2147483648) (-1) Hmin Hm1)
    as (_ & _ & _ & _ & Hneg & _).
  destruct (testmath_multiply_exact 65536 65536 Hk Hk) as (Hex & _).
  split; [exact Hneg | exact Hex].
Defined.

End TestMathArith.

(** ** Sign and NaN behaviour of [testmath_sqrt_approx] *)
Module SqrtApproxFacts.

Import CInt CIntFacts TestMath TestMathSpec Auxiliary.

(** *** Rounding keeps the sign

    The facts below are about the decoded form of binary64 values and the
    operations on it that specify [+] and [/]. *)
Section Rounding.

Variables prec emax : Z.

Lemma shr_1_nonneg mrs : 0 <= shr_m mrs -> 0 <= shr_m (shr_1 mrs).
Proof.
  destruct mrs as [m r s]. cbn.
  destruct m as [| [p | p |] | p]; cbn; lia.
Qed.

Lemma iter_pos_shr_1_nonneg p : forall mrs,
  0 <= shr_m mrs -> 0 <= shr_m (SpecFloat.iter_pos shr_1 p mrs).
Proof.
  induction p as [p IH | p IH |]; intros mrs H; cbn.
  - apply IH, IH, shr_1_nonneg, H.
  - apply IH, IH, H.
  - apply shr_1_nonneg, H.
Qed.

Lemma shr_fexp_nonneg m e l :
  0 <= m -> 0 <= shr_m (fst (shr_fexp prec emax m e l)).
Proof.
  intros H. unfold shr_fexp, shr.
  assert (H0 : 0 <= shr_m (shr_record_of_loc m l)).
  { destruct l as [| []]; exact H. }
  destruct (fexp prec emax (Zdigits2 m + e) - e); cbn; try exact H0.
  apply iter_pos_shr_1_nonneg, H0.
Qed.

Lemma round_nearest_even_nonneg m l : 0 <= m -> 0 <= round_nearest_even m l.
Proof.
  intros H. destruct l as [| []]; cbn; try lia.
  destruct (Z.even m); lia.
Qed.

(** Rounding a mantissa gives NaN or a value of the requested sign. *)
Lemma binary_round_aux_sign sx mx ex lx :
  match binary_round_aux prec emax sx mx ex lx with
  | S754_nan => True
  | S754_zero s | S754_infinity s | S754_finite s _ _ => s = sx
  end.
Proof.
  unfold binary_round_aux.
  destruct (shr_fexp prec emax mx ex lx) as [mrs' e'].
  destruct (shr_fexp prec emax _ e' loc_Exact) as [mrs'' e''].
  destruct (shr_m mrs''); [reflexivity | | exact I].
  destruct (e'' <=? emax - prec); reflexivity.
Qed.

(** Rounding a non-negative mantissa never gives NaN. *)
Lemma binary_round_aux_nonneg mx ex lx :
  0 <= mx -> nonneg_number (binary_round_aux prec emax false mx ex lx) = true.
Proof.
  intros H. unfold binary_round_aux.
  pose proof (shr_fexp_nonneg mx ex lx H) as H1.
  destruct (shr_fexp prec emax mx ex lx) as [mrs' e']. cbn in H1.
  pose proof (shr_fexp_nonneg _ e' loc_Exact
                (round_nearest_even_nonneg _ (loc_of_shr_record mrs') H1))
    as H2.
  destruct (shr_fexp prec emax _ e' loc_Exact) as [mrs'' e'']. cbn in H2.
  destruct (shr_m mrs''); [reflexivity | | lia].
  destruct (e'' <=? emax - prec); reflexivity.
Qed.

Lemma div_core_nonneg m1 e1 m2 e2 :
  0 <= fst (fst (SFdiv_core_binary prec emax (Zpos m1) e1 (Zpos m2) e2)).
Proof.
  unfold SFdiv_core_binary.
  set (s := _ - _ - _).
  set (m' := match s with Z0 => _ | Zpos _ => _ | Zneg _ => _ end).
  assert (Hm : 0 <= m').
  { subst m'. destruct s; try lia. apply Z.shiftl_nonneg. lia. }
  pose proof (Z_div_mod m' (Zpos m2) eq_refl) as Hd.
  destruct (Z.div_eucl m' (Zpos m2)) as [q r]. cbn. nia.
Qed.

(** A quotient of non-negative numbers is a non-negative number, unless
    it is [0 / 0] or [inf / inf]. *)
Lemma SFdiv_nonneg_number a b :
  nonneg_number a = true -> nonneg_number b = true ->
  match a, b with
  | S754_zero _, S754_zero _ | S754_infinity _, S754_infinity _ => True
  | _, _ => nonneg_number (SFdiv prec emax a b) = true
  end.
Proof.
  destruct a as [[] | [] | | [] ma ea], b as [[] | [] | | [] mb eb];
    cbn; try discriminate; try reflexivity; try exact (fun _ _ => I);
    intros _ _.
  pose proof (div_core_nonneg ma ea mb eb) as Hq.
  destruct (SFdiv_core_binary prec emax (Zpos ma) ea (Zpos mb) eb)
    as [[q e] l].
  apply binary_round_aux_nonneg. exact Hq.
Qed.

Lemma SFdiv_sign_clear a b :
  sign_clear a = true -> sign_clear b = true ->
  sign_clear (SFdiv prec emax a b) = true.
Proof.
  destruct a as [[] | [] | | [] ma ea], b as [[] | [] | | [] mb eb];
    cbn; try discriminate; try reflexivity; intros _ _.
  destruct (SFdiv_core_binary prec emax (Zpos ma) ea (Zpos mb) eb)
    as [[q e] l].
  pose proof (binary_round_aux_sign false q e l) as H.
  destruct (binary_round_aux prec emax false q e l); subst; reflexivity.
Qed.

Lemma SFadd_finite_nonneg ma ea mb eb :
  nonneg_number
    (SFadd prec emax (S754_finite false ma ea) (S754_finite false mb eb))
  = true.
Proof.
  unfold SFadd.
  set (pa := fst (shl_align ma ea (Z.min ea eb))).
  set (pb := fst (shl_align mb eb (Z.min ea eb))).
  change (cond_Zopp false (Z.pos pa) + cond_Zopp false (Z.pos pb))
    with (Z.pos (pa + pb)).
  unfold binary_normalize, binary_round.
  match goal with
  | |- context [shl_align ?m ?e ?e'] =>
      destruct (shl_align m e e') as [mz ez]
  end.
  apply binary_round_aux_nonneg. lia.
Qed.

Lemma SFadd_nonneg_number a b :
  nonneg_number a = true -> nonneg_number b = true ->
  nonneg_number (SFadd prec emax a b) = true.
Proof.
  destruct a as [[] | [] | | [] ma ea], b as [[] | [] | | [] mb eb];
    try discriminate; try reflexivity; intros _ _.
  apply SFadd_finite_nonneg.
Qed.

Lemma nonneg_number_sign_clear a :
  nonneg_number a = true -> sign_clear a = true.
Proof. destruct a; cbn; congruence. Qed.

Lemma SFadd_sign_clear a b :
  sign_clear a = true -> sign_clear b = true ->
  sign_clear (SFadd prec emax a b) = true.
Proof.
  destruct a as [[] | [] | | [] ma ea], b as [[] | [] | | [] mb eb];
    try discriminate; try reflexivity; intros _ _.
  apply nonneg_number_sign_clear, SFadd_finite_nonneg.
Qed.

End Rounding.

(** *** The Newton update on classes of values *)

Lemma Prim2SF_newton_update x g :
  Prim2SF (newton_update x g) =
    SF64div (SF64add (Prim2SF g) (SF64div (Prim2SF x) (Prim2SF g)))
            (S754_finite false 4503599627370496 (-51)).
Proof.
  unfold newton_update. rewrite div_spec, add_spec, div_spec. reflexivity.
Qed.

Lemma newton_update_sign_clear x g :
  sign_clear (Prim2SF x) = true -> sign_clear (Prim2SF g) = true ->
  sign_clear (Prim2SF (newton_update x g)) = true.
Proof.
  intros Hx Hg. rewrite Prim2SF_newton_update.
  apply SFdiv_sign_clear; [| reflexivity].
  apply SFadd_sign_clear; [exact Hg |].
  apply SFdiv_sign_clear; assumption.
Qed.

Lemma newton_update_nonneg_number x g mx ex :
  Prim2SF x = S754_finite false mx ex ->
  nonneg_number (Prim2SF g) = true ->
  nonneg_number (Prim2SF (newton_update x g)) = true.
Proof.
  intros Hx Hg. rewrite Prim2SF_newton_update, Hx.
  assert (Hq : nonneg_number
                 (SF64div (S754_finite false mx ex) (Prim2SF g)) = true).
  { pose proof (SFdiv_nonneg_number prec emax (S754_finite false mx ex)
                  (Prim2SF g) eq_refl Hg) as H.
    destruct (Prim2SF g); exact H. }
  pose proof (SFadd_nonneg_number prec emax _ _ Hg Hq) as Hs.
  pose proof (SFdiv_nonneg_number prec emax _
                (S754_finite false 4503599627370496 (-51)) Hs eq_refl) as H.
  unfold SF64div, SF64add in *.
  destruct (SFadd prec emax _ _); exact H.
Qed.

Lemma newton_update_nan_guess x g :
  Prim2SF g = S754_nan -> Prim2SF (newton_update x g) = S754_nan.
Proof.
  intros Hg. rewrite Prim2SF_newton_update, Hg.
  destruct (Prim2SF x); reflexivity.
Qed.

Lemma iter_invariant {A} (Inv : A -> Prop) (f : A -> A) n a :
  (forall b, Inv b -> Inv (f b)) -> Inv a -> Inv (Nat.iter n f a).
Proof.
  intros Hf Ha. induction n as [| n IH]; [exact Ha |].
  rewrite Nat.iter_succ. apply Hf, IH.
Qed.

Lemma iter_fixed_point {A} (f : A -> A) n a :
  f a = a -> Nat.iter n f a = a.
Proof.
  intros H. induction n as [| n IH]; [reflexivity |].
  rewrite Nat.iter_succ, IH. exact H.
Qed.

Lemma sqrt_approx_unguarded x :
  (x <=? 0)%float = false ->
  testmath_sqrt_approx x = Nat.iter 10 (newton_update x) (x / 2)%float.
Proof.
  intros Hx. unfold testmath_sqrt_approx. rewrite Hx.
  apply (sqrt_loop_iter x 10); lia.
Qed.

(** An input that fails the test [x <= 0.0] is NaN or has a clear sign. *)
Lemma unguarded_sign_clear x :
  (x <=? 0)%float = false -> sign_clear (Prim2SF x) = true.
Proof.
  rewrite leb_spec. change (Prim2SF 0) with (S754_zero false).
  destruct (Prim2SF x) as [[] | [] | | [] m e]; cbn; congruence.
Qed.

Lemma is_nan_spec f : is_nan f = true <-> Prim2SF f = S754_nan.
Proof.
  unfold is_nan. rewrite FloatAxioms.eqb_spec.
  destruct (Prim2SF f) as [[] | [] | | [] m e]; cbn;
    try (split; [discriminate | discriminate]);
    try (split; reflexivity).
  all: unfold SFeqb, SFcompare;
    rewrite Z.compare_refl, Pos.compare_cont_refl; cbn;
    split; discriminate.
Qed.

(** For a positive finite input every guess, and so the result, is a
    number with a clear sign. *)
Lemma sqrt_approx_nonneg_number x m e :
  Prim2SF x = S754_finite false m e ->
  nonneg_number (Prim2SF (testmath_sqrt_approx x)) = true.
Proof.
  intros Hx.
  assert (Hgd : (x <=? 0)%float = false).
  { rewrite leb_spec, Hx. reflexivity. }
  rewrite (sqrt_approx_unguarded x Hgd).
  apply (iter_invariant (fun g => nonneg_number (Prim2SF g) = true)).
  - intros g. apply (newton_update_nonneg_number x g m e Hx).
  - rewrite div_spec, Hx.
    exact (SFdiv_nonneg_number prec emax (S754_finite false m e)
             (S754_finite false 4503599627370496 (-51)) eq_refl eq_refl).
Qed.

(** For every input the result is NaN or has a clear sign. *)
Lemma sqrt_approx_sign_clear x :
  sign_clear (Prim2SF (testmath_sqrt_approx x)) = true.
Proof.
  destruct (x <=? 0)%float eqn:Hx.
  - unfold testmath_sqrt_approx. rewrite Hx. reflexivity.
  - rewrite (sqrt_approx_unguarded x Hx).
    pose proof (unguarded_sign_clear x Hx) as Hs.
    apply (iter_invariant (fun g => sign_clear (Prim2SF g) = true)).
    + intros g. apply newton_update_sign_clear, Hs.
    + rewrite div_spec. apply SFdiv_sign_clear; [exact Hs | reflexivity].
Qed.

(** X4.  [testmath_sqrt_approx] never returns a negative value: for every
    double [x], NaN and the infinities included, the result does not
    compare below [0.0], and it is not the negative zero. *)
Theorem sqrt_approx_never_negative (x : float) :
  (testmath_sqrt_approx x <? 0)%float = false /\
  testmath_sqrt_approx x <> (-0)%float.
Proof.
  pose proof (sqrt_approx_sign_clear x) as H.
  split.
  - rewrite ltb_spec. change (Prim2SF 0) with (S754_zero false).
    destruct (Prim2SF (testmath_sqrt_approx x)) as [[] | [] | | [] m e];
      cbn in *; congruence.
  - intros Heq. rewrite Heq in H. discriminate H.
Qed.

(** X5.  The result of [testmath_sqrt_approx] is NaN exactly when the
    input is NaN or [+infinity].  For every other input, in particular
    every finite one, the result is a number: [0.0] for an input [<= 0.0],
    and otherwise a value that is at least [0.0], possibly [+infinity]. *)
Theorem sqrt_approx_nan_iff (x : float) :
  (is_nan (testmath_sqrt_approx x) = true <->
   is_nan x = true \/ x = infinity) /\
  (is_nan (testmath_sqrt_approx x) = false ->
   (0 <=? testmath_sqrt_approx x)%float = true).
Proof.
  split; [split |].
  - intros Hn. apply is_nan_spec in Hn.
    destruct (x <=? 0)%float eqn:Hgd.
    + unfold testmath_sqrt_approx in Hn. rewrite Hgd in Hn. discriminate Hn.
    + pose proof (unguarded_sign_clear x Hgd) as Hs.
      rewrite leb_spec in Hgd.
      change (Prim2SF 0) with (S754_zero false) in Hgd.
      destruct (Prim2SF x) as [[] | [] | | [] m e] eqn:Hx;
        cbn in Hs, Hgd; try discriminate.
      * right. apply Prim2SF_inj. exact Hx.
      * left. apply is_nan_spec. exact Hx.
      * pose proof (sqrt_approx_nonneg_number x m e Hx) as H.
        rewrite Hn in H. discriminate H.
  - intros [Hx | ->].
    + apply is_nan_spec in Hx. apply is_nan_spec.
      assert (Hgd : (x <=? 0)%float = false).
      { rewrite leb_spec, Hx. reflexivity. }
      rewrite (sqrt_approx_unguarded x Hgd).
      apply (iter_invariant (fun g => Prim2SF g = S754_nan)).
      * intros g. apply newton_update_nan_guess.
      * rewrite div_spec, Hx. reflexivity.
    + vm_compute. reflexivity.
  - intros Hn.
    assert (Hnn : Prim2SF (testmath_sqrt_approx x) <> S754_nan).
    { intros H. apply is_nan_spec in H. congruence. }
    pose proof (sqrt_approx_sign_clear x) as Hs.
    rewrite leb_spec. change (Prim2SF 0) with (S754_zero false).
    destruct (Prim2SF (testmath_sqrt_approx x)) as [[] | [] | | [] m e];
      cbn in *; congruence.
Qed.

(** X6.  Once a guess reproduces itself the remaining turns of the loop
    change nothing: if, for an input that passes the guard, the guess
    after [k <= 10] updates is a fixed point of the update, it is the
    value returned. *)
Theorem sqrt_approx_settles (x : float) (k : nat) :
  (x <=? 0)%float = false ->
  (k <= 10)%nat ->
  let g := Nat.iter k (newton_update x) (x / 2)%float in
  newton_update x g = g ->
  testmath_sqrt_approx x = g.
Proof.
  intros Hgd Hk g Hfix.
  rewrite (sqrt_approx_unguarded x Hgd).
  replace 10%nat with ((10 - k) + k)%nat by lia.
  rewrite Nat.iter_add. fold g.
  apply iter_fixed_point. exact Hfix.
Qed.

(** For [16.0] the guess is [4.0] after six updates and stays there. *)
Lemma sqrt_approx_settles_witness :
  Nat.iter 6 (newton_update 16) (16 / 2)%float = 4%float /\
  testmath_sqrt_approx 16 = Nat.iter 6 (newton_update 16) (16 / 2)%float.
Proof.
  split; [reflexivity |].
  assert (Hk : (6 <= 10)%nat) by lia.
  exact (sqrt_approx_settles 16 6 eq_refl Hk eq_refl).
Defined.

End SqrtApproxFacts.

(** ** The hlp_ functions as a family *)
Module HlpFacts.

Import CInt CIntFacts TestMath TestMathSpec Auxiliary.

Lemma hlp_unfold P sign m :
  hlp P sign m =
    (m' ← store sign (PLit (signature_literal P)) m;
     Some (m', PFun (impl P))).
Proof. destruct P; reflexivity. Qed.

Lemma store_Some sign v (m m' : gmap Z pointer) :
  store sign v m = Some m' <->
  exists a, sign = PSlot a /\ is_Some (m !! a) /\ m' = <[a := v]> m.
Proof.
  unfold store. destruct sign as [| l | f | a];
    try (split; [discriminate | intros (? & ? & _); discriminate]).
  destruct (decide (is_Some (m !! a))) as [Hs | Hn].
  - split.
    + intros [= <-]. eauto.
    + intros (a' & [= <-] & _ & ->). reflexivity.
  - split; [discriminate |].
    intros (a' & [= <-] & Hs & _). contradiction.
Qed.

(** What a call of an hlp_ function does, when it is defined. *)
Lemma hlp_Some P sign (m m' : gmap Z pointer) p :
  hlp P sign m = Some (m', p) <->
  exists a, sign = PSlot a /\ is_Some (m !! a) /\
            m' = <[a := PLit (signature_literal P)]> m /\
            p = PFun (impl P).
Proof.
  rewrite hlp_unfold.
  destruct (store sign (PLit (signature_literal P)) m) as [m0 |] eqn:Hs; cbn.
  - apply store_Some in Hs as (a & -> & Hv & ->). split.
    + intros [= <- <-]. eauto 6.
    + intros (a' & [= <-] & _ & -> & ->). reflexivity.
  - split; [discriminate |].
    intros (a & -> & Hv & _).
    assert (H : store (PSlot a) (PLit (signature_literal P)) m
                = Some (<[a := PLit (signature_literal P)]> m)).
    { apply store_Some. eauto. }
    congruence.
Qed.

(** X7.  An hlp_ function does not check its argument: the call is
    defined exactly when [sign] designates a pointer object of the caller,
    and a call with NULL is undefined.  A defined call creates and removes
    no object: it only overwrites the one designated. *)
Theorem hlp_defined_iff_valid_slot
  (P : primitive) (sign : pointer) (m : gmap Z pointer) :
  (is_Some (hlp P sign m) <-> valid_slot m sign) /\
  hlp P NULL m = None /\
  (forall m' p, hlp P sign m = Some (m', p) -> dom m' = dom m).
Proof.
  split; [| split].
  - split.
    + intros [[m' p] Hh]. apply hlp_Some in Hh as (a & -> & Hv & _). exact Hv.
    + intros Hv. unfold valid_slot, load in Hv.
      destruct sign as [| l | f | a]; try (destruct Hv; discriminate).
      eexists (_, _). apply hlp_Some. eauto 6.
  - destruct P; reflexivity.
  - intros m' p Hh. apply hlp_Some in Hh as (a & -> & Hv & -> & _).
    apply dom_insert_lookup_L. exact Hv.
Qed.

(** X8.  Calls through one out-slot compose as assignments do.  A
    repeated call of the same hlp_ function changes nothing and returns
    the same address (signatures are stable across calls); after calls of
    two hlp_ functions the slot holds the signature of the later one, and
    the state is the one the later call alone would have produced. *)
Theorem hlp_calls_compose
  (P Q : primitive) (sign : pointer) (m : gmap Z pointer) :
  valid_slot m sign ->
  exists m1 m2,
    hlp P sign m = Some (m1, PFun (impl P)) /\
    hlp P sign m1 = Some (m1, PFun (impl P)) /\
    hlp Q sign m = Some (m2, PFun (impl Q)) /\
    hlp Q sign m1 = Some (m2, PFun (impl Q)) /\
    (load sign m2 ≫= string_at) = Some
       match Q with
       | prim_add | prim_multiply => "ii_i"
       | prim_sqrt_approx => "d_d"
       end.
Proof.
  intros Hv. unfold valid_slot, load in Hv.
  destruct sign as [| l | f | a]; try (destruct Hv; discriminate).
  exists (<[a := PLit (signature_literal P)]> m),
         (<[a := PLit (signature_literal Q)]> m).
  assert (Hv1 : is_Some (<[a := PLit (signature_literal P)]> m !! a)).
  { rewrite lookup_insert_eq. eauto. }
  split; [apply hlp_Some; eauto 6 |].
  split; [apply hlp_Some; exists a; rewrite insert_insert_eq; eauto 6 |].
  split; [apply hlp_Some; eauto 6 |].
  split; [apply hlp_Some; exists a; rewrite insert_insert_eq; eauto 6 |].
  cbn. rewrite lookup_insert_eq. destruct Q; reflexivity.
Qed.

Lemma hlp_calls_compose_witness :
  exists m1 m2,
    hlp prim_add (PSlot 8) {[ 8 := NULL ]} = Some (m1, PFun fn_testmath_add) /\
    hlp prim_sqrt_approx (PSlot 8) m1
      = Some (m2, PFun fn_testmath_sqrt_approx) /\
    (load (PSlot 8) m2 ≫= string_at) = Some "d_d".
Proof.
  assert (Hv : valid_slot {[ 8 := NULL ]} (PSlot 8)).
  { exists NULL. cbn. apply lookup_singleton_eq. }
  destruct (hlp_calls_compose prim_add prim_sqrt_approx (PSlot 8) _ Hv)
    as (m1 & m2 & H1 & _ & _ & H2 & Hs).
  exists m1, m2. repeat split; assumption.
Defined.

(** X9.  The results of the hlp_ functions tell the primitives apart as
    far as the host needs: two of them return the same code address only
    if they are the same primitive, and they leave equal signature strings
    exactly when the two implementations have the same prototype (add and
    multiply share ["ii_i"]). *)
Theorem hlp_results_distinguish_primitives
  (P Q : primitive) (sign : pointer) (m mp mq : gmap Z pointer)
  (p q : pointer) :
  hlp P sign m = Some (mp, p) ->
  hlp Q sign m = Some (mq, q) ->
  (p = q <-> P = Q) /\
  ((load sign mp ≫= string_at) = (load sign mq ≫= string_at) <->
   prototype_of (impl P) = prototype_of (impl Q)).
Proof.
  intros HP HQ.
  apply hlp_Some in HP as (a & -> & Hv & -> & ->).
  apply hlp_Some in HQ as (a' & [= <-] & _ & -> & ->).
  cbn. rewrite !lookup_insert_eq. cbn.
  destruct P, Q; cbn; repeat split; intros; try discriminate; try reflexivity.
Qed.

Lemma hlp_results_distinguish_primitives_witness :
  PFun fn_testmath_add <> PFun fn_testmath_multiply /\
  ((load (PSlot 8) (<[8 := PLit lit_add]> {[ 8 := NULL ]}) ≫= string_at)
   = (load (PSlot 8) (<[8 := PLit lit_multiply]> {[ 8 := NULL ]})
        ≫= string_at)).
Proof.
  assert (Hs : is_Some (({[ 8 := NULL ]} : gmap Z pointer) !! 8)).
  { exists NULL. apply lookup_singleton_eq. }
  assert (HP : hlp prim_add (PSlot 8) {[ 8 := NULL ]}
               = Some (<[8 := PLit lit_add]> {[ 8 := NULL ]},
                       PFun fn_testmath_add)).
  { apply hlp_Some. exists 8. repeat split; assumption. }
  assert (HQ : hlp prim_multiply (PSlot 8) {[ 8 := NULL ]}
               = Some (<[8 := PLit lit_multiply]> {[ 8 := NULL ]},
                       PFun fn_testmath_multiply)).
  { apply hlp_Some. exists 8. repeat split; assumption. }
  destruct (hlp_results_distinguish_primitives _ _ _ _ _ _ _ _ HP HQ)
    as [Hpq Hsig].
  split.
  - intros Heq. apply Hpq in Heq. discriminate Heq.
  - apply Hsig. reflexivity.
Defined.

End HlpFacts.

(** ** The shim from installation to delivery *)
Module ShimFacts.

Import CInt CIntFacts SegHandler SegHandlerSpec Auxiliary.

(** The exit status the parent sees for [_exit(128 + sig)], for any
    [sig]. *)
Lemma exit_status_mod sig :
  Z.land (CInt.add 128 sig) 255 = (128 + sig) mod 256.
Proof.
  unfold CInt.add. change 255 with (Z.ones 8).
  rewrite Z.land_ones by lia. change (2 ^ 8) with 256.
  assert (Hd : (256 | modulus)) by (exists 16777216; reflexivity).
  rewrite <- (Z.mod_mod_divide (wrap_int _) modulus 256 Hd), wrap_int_congr.
  apply Z.mod_mod_divide, Hd.
Qed.

Lemma land_lor_l a b : Z.land (Z.lor a b) a = a.
Proof.
  apply Z.bits_inj'. intros n Hn.
  rewrite Z.land_spec, Z.lor_spec.
  destruct (Z.testbit a n), (Z.testbit b n); reflexivity.
Qed.

Lemma land_lor_r a b : Z.land (Z.lor a b) b = b.
Proof. rewrite Z.lor_comm. apply land_lor_l. Qed.

Section Shim.

Variables SIGSEGV SIGABRT SIGBUS SA_SIGINFO SA_ONSTACK SI_KERNEL : Z.
Variables (fmt_p symbol_line : Z -> string).
Variable default : Z -> option default_action.

(** X10.  The handler never returns, whatever number it is called with
    and however [stderr] is buffered: it ends the process with the status
    [(128 + sig) mod 256], and changes neither the signal dispositions
    nor the alternate stack nor [stdout].  Before that it passes the four
    report lines to [stderr] and the symbol lines of the innermost
    [min(100, depth)] frames to descriptor 2.  The symbol lines reach the
    descriptor; of the report lines it receives, before them, what the
    stream lets through, in at most four pieces, and the rest is still
    held by the stream when the process ends. *)
Theorem segfault_handler_always_fatal
  (w : world) (sig : Z) (si : siginfo_t) :
  let captured := take 100 (frames w) in
  let texts := report_lines fmt_p sig si (Z.of_nat (length captured)) in
  let lines :=
    (fun a => Output STDERR_FILENO Direct (symbol_line a +:+ nl))
      <$> captured in
  exists w' streamed,
    segfault_handler fmt_p symbol_line sig si w
      = (w', Exited ((128 + sig) mod 256)) /\
    0 <= (128 + sig) mod 256 < 256 /\
    handlers w' = handlers w /\
    altstack w' = altstack w /\
    stdout_state w' = stdout_state w /\
    length captured = Nat.min 100 (length (frames w)) /\
    written w' =
      written w ++ (Output STDERR_FILENO (ViaStream stderr) <$> texts)
        ++ lines /\
    reached w' =
      reached w ++ (Output STDERR_FILENO (ViaStream stderr) <$> streamed)
        ++ lines /\
    (length streamed <= 4)%nat /\
    concat_text streamed +:+ pending (stderr_state w')
      = pending (stderr_state w) +:+ concat_text texts.
Proof.
  intros captured texts lines.
  rewrite segfault_handler_run, exit_status_mod.
  eexists _, _. split; [reflexivity |].
  cbn [written handlers altstack reached stdout_state stderr_state].
  split; [apply Z.mod_pos_bound; lia |].
  split; [reflexivity |]. split; [reflexivity |]. split; [reflexivity |].
  split; [apply length_take |].
  split; [reflexivity |]. split; [reflexivity |].
  split; [apply (puts_length (report_lines _ _ _ _)) |].
  apply puts_keeps_text.
Qed.


Lemma handlers_after_other w sig :
  sig ∉ [SIGSEGV; SIGABRT; SIGBUS] ->
  handlers_after SIGSEGV SIGABRT SIGBUS SA_SIGINFO SA_ONSTACK w !! sig
  = handlers w !! sig.
Proof.
  intros Hn. rewrite !not_elem_of_cons in Hn.
  destruct Hn as (H1 & H2 & H3 & _).
  unfold handlers_after.
  repeat match goal with
    | |- context [sigaction_ok w ?s] =>
        destruct (sigaction_ok w s);
        [rewrite lookup_insert_ne by congruence |]
    end; reflexivity.
Qed.

(** X11.  [install_handler] touches the dispositions of SIGSEGV, SIGABRT
    and SIGBUS only: every other signal keeps the disposition it had.
    Where the kernel accepts the registration, any earlier handler of one
    of the three is replaced by [segfault_handler], registered with both
    [SA_SIGINFO] and [SA_ONSTACK] set and with an empty signal mask. *)
Theorem install_handler_registers_three_signals (w : world) :
  let w' :=
    (install_handler SIGSEGV SIGABRT SIGBUS SA_SIGINFO SA_ONSTACK w).1 in
  (forall sig, sig ∉ [SIGSEGV; SIGABRT; SIGBUS] ->
               handlers w' !! sig = handlers w !! sig) /\
  (forall sig, sig ∈ [SIGSEGV; SIGABRT; SIGBUS] ->
               sigaction_ok w sig = true ->
               exists sa,
                 handlers w' !! sig = Some sa /\
                 sa_sigaction sa = fn_segfault_handler /\
                 Z.land (sa_flags sa) SA_SIGINFO = SA_SIGINFO /\
                 Z.land (sa_flags sa) SA_ONSTACK = SA_ONSTACK /\
                 sa_mask sa = []).
Proof.
  rewrite install_handler_run. cbn [fst handlers].
  split; [apply handlers_after_other |].
  intros sig Hin Hok. eexists.
  split; [apply handlers_after_accepted; auto |].
  cbn. auto using land_lor_l, land_lor_r.
Qed.

(** X12.  The result of [malloc] is not checked.  When the allocation
    fails and the kernel accepts the request all the same, the alternate
    signal stack that ends up registered has the null pointer as its
    base. *)
Theorem install_handler_unchecked_malloc (w : world) :
  malloc_result w 65536 = 0 ->
  sigaltstack_ok w (Stack 0 65536 0) = true ->
  altstack (install_handler SIGSEGV SIGABRT SIGBUS SA_SIGINFO SA_ONSTACK w).1
  = Some (Stack 0 65536 0).
Proof.
  intros Hm Hk. rewrite install_handler_run. cbn [fst altstack].
  rewrite Hm, Hk. reflexivity.
Qed.


(** X14.  Without a registration there is no report.  If a signal has
    the default disposition and either is none of the three or has its
    registration refused, then after [install_handler], which has printed
    its confirmation line all the same, a delivery of the signal writes
    nothing more and changes nothing: the signal's default action is
    taken.  A signal whose default action is to terminate or to dump core
    kills the process, one whose default action is to stop stops it, and
    one that is ignored or continues lets it run on. *)
Theorem install_refused_then_default_action
  (w : world) (sig : Z) (si : siginfo_t) :
  handlers w !! sig = None ->
  sig ∉ [SIGSEGV; SIGABRT; SIGBUS] \/ sigaction_ok w sig = false ->
  exists w1,
    install_handler SIGSEGV SIGABRT SIGBUS SA_SIGINFO SA_ONSTACK w
      = (w1, Returned tt) /\
    written w1 = written w ++ [confirmation] /\
    deliver SIGSEGV SA_ONSTACK SI_KERNEL fmt_p symbol_line default sig si w1
      = (w1,
         match default sig with
         | Some Term | Some Core => Killed sig
         | Some Stop => Stopped sig
         | Some Ign | Some Cont | None => Returned tt
         end).
Proof.
  intros Hnone Hcase.
  rewrite install_handler_run. eexists. split; [reflexivity |].
  split; [reflexivity |].
  unfold deliver. cbn [handlers].
  assert (Hnow :
    handlers_after SIGSEGV SIGABRT SIGBUS SA_SIGINFO SA_ONSTACK w !! sig
    = None).
  { destruct Hcase as [Hout | Hno].
    - rewrite handlers_after_other by exact Hout. exact Hnone.
    - rewrite handlers_after_refused by exact Hno. exact Hnone. }
  rewrite Hnow. destruct (default sig) as [[] |]; reflexivity.
Qed.

End Shim.

(** On Linux, with no memory left, the shim registers an alternate stack at
    address 0. *)
Lemma install_handler_unchecked_malloc_witness :
  altstack (Linux.install_handler (out_of_memory [])).1
  = Some (Stack 0 65536 0).
Proof.
  apply (install_handler_unchecked_malloc
           Linux.SIGSEGV Linux.SIGABRT Linux.SIGBUS
           Linux.SA_SIGINFO Linux.SA_ONSTACK (out_of_memory []));
    reflexivity.
Defined.


(** On Linux, in a healthy process with the shim loaded: a floating-point
    exception (signal 8) kills the process and a child's ending (signal
    17) is ignored, both without a report. *)
Lemma install_refused_then_default_action_witness :
  exists w1,
    Linux.install_handler (Linux.healthy []) = (w1, Returned tt) /\
    written w1 = [confirmation] /\
    Linux.deliver 8 (SigInfo 1 0) w1 = (w1, Killed 8) /\
    Linux.deliver 17 (SigInfo 1 0) w1 = (w1, Returned tt).
Proof.
  assert (Hout8 : 8 ∉ [Linux.SIGSEGV; Linux.SIGABRT; Linux.SIGBUS]).
  { rewrite !elem_of_cons, elem_of_nil.
    unfold Linux.SIGSEGV, Linux.SIGABRT, Linux.SIGBUS. lia. }
  assert (Hout17 : 17 ∉ [Linux.SIGSEGV; Linux.SIGABRT; Linux.SIGBUS]).
  { rewrite !elem_of_cons, elem_of_nil.
    unfold Linux.SIGSEGV, Linux.SIGABRT, Linux.SIGBUS. lia. }
  destruct (install_refused_then_default_action
              Linux.SIGSEGV Linux.SIGABRT Linux.SIGBUS
              Linux.SA_SIGINFO Linux.SA_ONSTACK Linux.SI_KERNEL
              Linux.fmt_p Linux.symbol_line Linux.default
              (Linux.healthy []) 8 (SigInfo 1 0)
              (lookup_empty 8) (or_introl Hout8))
    as (w1 & Hrun & Hwr & H8).
  destruct (install_refused_then_default_action
              Linux.SIGSEGV Linux.SIGABRT Linux.SIGBUS
              Linux.SA_SIGINFO Linux.SA_ONSTACK Linux.SI_KERNEL
              Linux.fmt_p Linux.symbol_line Linux.default
              (Linux.healthy []) 17 (SigInfo 1 0)
              (lookup_empty 17) (or_introl Hout17))
    as (w1' & Hrun' & _ & H17).
  assert (Hsame : w1' = w1) by congruence. subst w1'.
  exists w1. repeat split; assumption.
Defined.


End ShimFacts.
